(** * FishFeeder69: the LED matrix, the servo release and the mode button

    A shallow embedding of the peripheral code of
    [microphone/picovoice/demo/c/picovoice_demo_mic.c]: the glyph table and
    the 8x8 matrix renderer, the PWM release profiles and the servo control
    loop, the mode switch and the display loop that polls the button.

    Conventions.
    - A [char] or [unsigned char] object is the integer the C expression
      reads from it: in 0..255 for [unsigned char]; for plain [char] in
      0..255 or in -128..127 according to [char_is_signed] (plain [char] is
      unsigned on the ARM boards the program is built for and signed on
      x86).
    - A C string is a [string]; reading at its end gives the terminating
      NUL, [EMPTY].
    - Hardware accesses are recorded as a trace of [event]s. The sysfs and
      I2C accesses are taken to succeed (on failure the C code exits the
      process). *)

From Stdlib Require Import ZArith List Bool Ascii String Lia.
Import ListNotations.
Local Open Scope Z_scope.

(** ** Constants *)

Definition numberOfMatrixRows : Z := 8.
Definition numberOfMatrixCols : Z := 8.
Definition I2C_DEVICE_ADDRESS : Z := 0x70.
Definition EMPTY : ascii := zero.
Definition I2CDRV_LINUX_BUS1 : string := "/dev/i2c-1".

(** ** Integer conversions *)

(** Conversion of an [int] to [unsigned char]. *)
Definition to_uchar (n : Z) : Z := n mod 256.

(** Conversion of an [int] to [signed char] (two's complement wrap). *)
Definition to_schar (n : Z) : Z := (n + 128) mod 256 - 128.

(** Conversion of a [long long] to [int] (two's complement wrap). *)
Definition to_int (n : Z) : Z := (n + 2147483648) mod 4294967296 - 2147483648.

(** ** The glyph table *)

Record matrixData : Type := mkMatrixData {
  digit : ascii;          (* 0-9 or . or empty space *)
  rowBitArr : list Z;     (* each row of bits of the char *)
  cols : Z                (* how wide the character is, in columns *)
}.

Definition matrix : list matrixData := [
  mkMatrixData " " [0x00; 0x00; 0x00; 0x00; 0x00; 0x00; 0x00; 0x00] 4;
  mkMatrixData "0" [0x20; 0x50; 0x50; 0x50; 0x50; 0x50; 0x20; 0x00] 4;
  mkMatrixData "1" [0x20; 0x30; 0x20; 0x20; 0x20; 0x20; 0x70; 0x00] 4;
  mkMatrixData "2" [0x20; 0x50; 0x40; 0x20; 0x20; 0x10; 0x70; 0x00] 4;
  mkMatrixData "3" [0x30; 0x40; 0x40; 0x70; 0x40; 0x40; 0x30; 0x00] 4;
  mkMatrixData "4" [0x40; 0x60; 0x50; 0x50; 0x70; 0x40; 0x40; 0x00] 4;
  mkMatrixData "5" [0x70; 0x10; 0x10; 0x70; 0x40; 0x50; 0x20; 0x00] 4;
  mkMatrixData "6" [0x60; 0x10; 0x10; 0x30; 0x50; 0x50; 0x20; 0x00] 4;
  mkMatrixData "7" [0x70; 0x40; 0x40; 0x40; 0x20; 0x20; 0x20; 0x00] 4;
  mkMatrixData "8" [0x20; 0x50; 0x50; 0x20; 0x50; 0x50; 0x20; 0x00] 4;
  mkMatrixData "9" [0x20; 0x50; 0x50; 0x60; 0x40; 0x40; 0x30; 0x00] 4;
  mkMatrixData "." [0x00; 0x00; 0x00; 0x00; 0x00; 0x00; 0x00; 0x40] 1;
  mkMatrixData "M" [0x50; 0x70; 0x70; 0x50; 0x50; 0x50; 0x50; 0x00] 4
].

(** What the scan of [searchForHexData] comes to. The C function returns
    the address of an entry or NULL; the third outcome is the one C leaves
    undefined: the scan has walked to index [i], past the last entry of the
    array, and reads [matrix[i].digit] there. *)
Inductive lookup : Type :=
  | Found (i : nat) (e : matrixData)
  | Null
  | OutOfBounds (i : nat).

(** [for (int i = 0; matrix[i].digit != EMPTY; i++)] over the array [tbl],
    started at index [i] with [tbl] the entries from [i] on. *)
Fixpoint scanForHexData (tbl : list matrixData) (i : nat) (objectMatrix : ascii)
  : lookup :=
  match tbl with
  | [] => OutOfBounds i
  | e :: rest =>
      if Ascii.eqb (digit e) EMPTY then Null
      else if Ascii.eqb (digit e) objectMatrix then Found i e
      else scanForHexData rest (S i) objectMatrix
  end.

Definition searchForHexData (objectMatrix : ascii) : lookup :=
  scanForHexData matrix 0 objectMatrix.

(** ** Shifting and warping rows *)

Section Renderer.

(** Whether plain [char] is a signed type on the target. *)
Variable char_is_signed : bool.

(** Conversion of an [int] to plain [char]. *)
Definition to_char (n : Z) : Z :=
  if char_is_signed then to_schar n else to_uchar n.

Definition shiftLeftOnMatrixBy (shiftAmountInBytes : Z) (rowValue : Z) : Z :=
  if 0 <=? shiftAmountInBytes
  then to_char (Z.shiftr rowValue shiftAmountInBytes)
  else to_char (Z.shiftl rowValue (- shiftAmountInBytes)).

End Renderer.

Definition warpFrame (logicalFrame : Z) : Z :=
  to_uchar (Z.lor (Z.shiftr logicalFrame 1) (Z.shiftl logicalFrame 7)).

(** ** Hardware accesses *)

Inductive event : Type :=
  | FileWrite (location value : string)    (* fopen, fprintf, fclose *)
  | Nanosleep (seconds nanoseconds : Z)    (* nanosleep *)
  | I2cOpen (bus : string) (address : Z)   (* open, ioctl I2C_SLAVE *)
  | I2cWrite (regAddr value : Z).          (* write of two bytes *)

Definition trace : Type := list event.

Definition sleepForMs (delayInMs : Z) : trace :=
  let NS_PER_MS := 1000 * 1000 in
  let NS_PER_SECOND := 1000000000 in
  let delayNs := delayInMs * NS_PER_MS in
  let seconds := to_int (Z.quot delayNs NS_PER_SECOND) in
  let nanoseconds := to_int (Z.rem delayNs NS_PER_SECOND) in
  [Nanosleep seconds nanoseconds].

Definition writeTo (location value : string) : trace :=
  [FileWrite location value].

Definition pwm_period : string := "/sys/class/pwm/pwmchip3/pwm1/period".
Definition pwm_enable : string := "/sys/class/pwm/pwmchip3/pwm1/enable".
Definition pwm_duty_cycle : string := "/sys/class/pwm/pwmchip3/pwm1/duty_cycle".

Definition defaultRelease : trace :=
  writeTo pwm_period "20000000" ++
  writeTo pwm_enable "1" ++
  writeTo pwm_duty_cycle "2000000" ++
  sleepForMs 1000 ++
  writeTo pwm_duty_cycle "1000000".

(** [sleep = timeToSleep * 1000] is an [int] product. *)
Definition userBasedRelease (timeToSleep : Z) : trace :=
  let sleep := to_int (timeToSleep * 1000) in
  sleepForMs sleep ++ defaultRelease.

Definition mode2Release : trace :=
  writeTo pwm_period "20000000" ++
  writeTo pwm_enable "1" ++
  writeTo pwm_duty_cycle "2000000" ++
  sleepForMs 10000 ++
  writeTo pwm_duty_cycle "1000000".

Definition writeI2cReg (regAddr value : Z) : trace :=
  [I2cWrite (to_uchar regAddr) (to_uchar value)].

Definition initI2cBus (bus : string) (address : Z) : trace :=
  [I2cOpen bus address].

Definition writeSmileyFace : trace :=
  initI2cBus I2CDRV_LINUX_BUS1 I2C_DEVICE_ADDRESS ++
  writeI2cReg 0x00 0x1E ++ writeI2cReg 0x02 0x21 ++
  writeI2cReg 0x04 0xD2 ++ writeI2cReg 0x06 0xD2 ++
  writeI2cReg 0x08 0xC0 ++ writeI2cReg 0x0A 0xD2 ++
  writeI2cReg 0x0C 0x2D ++ writeI2cReg 0x0E 0x1E.

(** [for (i = 0; i < 16; i += 2) writeI2cReg(fd, i, physicalFrameValues[j++])]
    from register [i] on, [values] being the bytes from index [j] on. *)
Fixpoint writeRows (i : Z) (values : list Z) : trace :=
  match values with
  | [] => []
  | v :: rest => writeI2cReg i v ++ writeRows (i + 2) rest
  end.

Definition clearDisplay : trace :=
  initI2cBus I2CDRV_LINUX_BUS1 I2C_DEVICE_ADDRESS ++
  writeRows 0 (repeat 0x00 8).

Definition writeMatrixByBytes (physicalFrameValues : list Z) : trace :=
  initI2cBus I2CDRV_LINUX_BUS1 I2C_DEVICE_ADDRESS ++
  writeRows 0 (firstn 8 physicalFrameValues).

(** ** Outcomes of the code that can go wrong *)

Inductive result (A : Type) : Type :=
  | Done (a : A)
  | Fault        (* a read outside an array or through a null pointer *)
  | Blocked      (* waits for an input that does not come *)
  | Timeout.     (* the model's fuel ran out *)
Arguments Done {A} a.
Arguments Fault {A}.
Arguments Blocked {A}.
Arguments Timeout {A}.

Definition bind {A B : Type} (r : result A) (k : A -> result B) : result B :=
  match r with
  | Done a => k a
  | Fault => Fault
  | Blocked => Blocked
  | Timeout => Timeout
  end.

Notation "x <- r ;; k" := (bind r (fun x => k))
  (at level 61, r at next level, right associativity).

(** ** The renderer *)

Section Display.

Variable char_is_signed : bool.

(** [callMatrixObject(searchForHexData(current))]: the entry whose fields
    the globals [charRowByRowBits] and [charCurrentColumns] are set from.
    [callMatrixObject] reads through the pointer without a test. *)
Definition callMatrixObject (found : lookup) : result matrixData :=
  match found with
  | Found _ e => Done e
  | Null => Fault
  | OutOfBounds _ => Fault
  end.

(** [*display] *)
Definition deref (display : string) : ascii :=
  match display with
  | EmptyString => EMPTY
  | String c _ => c
  end.

(** [++display] *)
Definition advance (display : string) : string :=
  match display with
  | EmptyString => EmptyString
  | String _ rest => rest
  end.

(** The inner loop of [displayMatrix]: every row of [logicalFrameArr] is
    or-ed with the shifted row of the glyph and stored back. *)
Fixpoint orRows (shiftAmountInBytes : Z) (frame rows : list Z) : list Z :=
  match frame, rows with
  | f :: frame', r :: rows' =>
      let rowBits := shiftLeftOnMatrixBy char_is_signed shiftAmountInBytes r in
      to_uchar (Z.lor f rowBits) :: orRows shiftAmountInBytes frame' rows'
  | _, _ => frame
  end.

(** The column loop of [displayMatrix], from column [col] on. Each turn
    adds the width of the glyph it drew to [col]; [fuel] bounds the number
    of turns. *)
Fixpoint displayColumns (fuel : nat) (col : Z) (display : string)
    (logicalFrameArr : list Z) : result (list Z) :=
  if col <? numberOfMatrixCols then
    match fuel with
    | O => Timeout
    | S fuel' =>
        let current := if Ascii.eqb (deref display) EMPTY then " "%char
                       else deref display in
        let display' := if Ascii.eqb (deref display) EMPTY then display
                        else advance display in
        e <- callMatrixObject (searchForHexData current) ;;
        let shiftAmountInBytes := numberOfMatrixCols - cols e - col in
        displayColumns fuel' (col + cols e) display'
          (orRows shiftAmountInBytes logicalFrameArr (rowBitArr e))
    end
  else Done logicalFrameArr.

(** The logical frame [displayMatrix] builds in [logicalFrameArr]. Every
    width of the table is at least 1, so 8 turns are enough. *)
Definition renderFrame (display : string) : result (list Z) :=
  let current := if Ascii.eqb (deref display) EMPTY then " "%char
                 else deref display in
  _ <- callMatrixObject (searchForHexData current) ;;
  displayColumns 8 0 display (repeat 0 8).

(** [logicalFrame()]: the rows warped into [physicalFrameArr]. *)
Definition logicalFrame (logicalFrameArr : list Z) : list Z :=
  map warpFrame logicalFrameArr.

Definition displayMatrix (display : string) : result trace :=
  frame <- renderFrame display ;;
  Done (writeMatrixByBytes (logicalFrame frame)).

(** [snprintf(buff, 10, "%s", c)]: at most 9 characters of [c], up to its
    terminating NUL. *)
Fixpoint snprintf (size : nat) (c : string) : string :=
  match size, c with
  | S n, String a rest =>
      if Ascii.eqb a EMPTY then EmptyString else String a (snprintf n rest)
  | _, _ => EmptyString
  end.

Definition displayMode (c : string) : result trace :=
  let buff := snprintf 9 c in
  displayMatrix buff.

End Display.

(** ** The shared variables *)

Record globals : Type := mkGlobals {
  stopServo : bool;
  stopButton : bool;
  servoTurnedOn : bool;
  mode : Z;
  (* the threads created on [threadServo] that have not returned *)
  servoThreads : nat
}.

(** The initial values of the statics. [stopServo] has no initialiser and
    starts as [false]. *)
Definition initial : globals := mkGlobals false false false 0 0.

Definition set_stopServo (b : bool) (g : globals) : globals :=
  mkGlobals b (stopButton g) (servoTurnedOn g) (mode g) (servoThreads g).
Definition set_stopButton (b : bool) (g : globals) : globals :=
  mkGlobals (stopServo g) b (servoTurnedOn g) (mode g) (servoThreads g).
Definition set_servoTurnedOn (b : bool) (g : globals) : globals :=
  mkGlobals (stopServo g) (stopButton g) b (mode g) (servoThreads g).
Definition set_mode (m : Z) (g : globals) : globals :=
  mkGlobals (stopServo g) (stopButton g) (servoTurnedOn g) m (servoThreads g).
Definition set_servoThreads (n : nat) (g : globals) : globals :=
  mkGlobals (stopServo g) (stopButton g) (servoTurnedOn g) (mode g) n.

(** ** The mode switch *)

Definition switchMode (g : globals) : globals :=
  if mode g =? 0 then set_mode 1 g
  else if mode g =? 1 then set_mode 2 g
  else if mode g =? 2 then set_mode 0 g
  else g.

(** ** The servo control loop *)

(** [pthread_join(threadServo, NULL)] changes none of the variables. The
    control loop calls it on its own thread, where it returns at once with
    an error. *)
Definition stop_stopServo (g : globals) : globals :=
  set_stopServo true (set_servoTurnedOn false g).

(** [pthread_create(&threadServo, NULL, turningServoMotor, NULL)] *)
Definition pthread_create_servo (g : globals) : globals :=
  set_servoThreads (S (servoThreads g)) g.

Definition start_startServo (g : globals) : globals :=
  pthread_create_servo (set_stopServo false g).

(** One turn of the loop of [turningServoMotor]. [timeToSleep] is the
    number [scanf] stores in mode 1. *)
Definition servoCycle (timeToSleep : Z) (g : globals) : globals * trace :=
  let release :=
    if mode g =? 0 then defaultRelease
    else if mode g =? 1 then userBasedRelease timeToSleep ++ sleepForMs 1000
    else if mode g =? 2 then mode2Release
    else [] in
  let g1 := set_servoTurnedOn true g in
  (stop_stopServo g1, release ++ clearDisplay ++ sleepForMs 100).

(** [while (!stopServo) { ... }]: the variables and the trace at the end
    of the loop, and the number of turns it took. *)
Fixpoint turningServoLoop (fuel : nat) (timeToSleep : Z) (g : globals)
  : result (globals * trace * nat) :=
  if stopServo g then Done (g, [], O)
  else
    match fuel with
    | O => Timeout
    | S fuel' =>
        let (g1, t1) := servoCycle timeToSleep g in
        r <- turningServoLoop fuel' timeToSleep g1 ;;
        let '(g2, t2, n) := r in
        Done (g2, t1 ++ t2, S n)
    end.

(** The thread function: the loop, then the thread returns. *)
Definition turningServoMotor (fuel : nat) (timeToSleep : Z) (g : globals)
  : result (globals * trace * nat) :=
  r <- turningServoLoop fuel timeToSleep g ;;
  let '(g1, t, n) := r in
  Done (set_servoThreads (pred (servoThreads g1)) g1, t, n).

(** The two states of the actuator. *)
Definition Idle (g : globals) : Prop := servoThreads g = O.
Definition Running (g : globals) : Prop := (0 < servoThreads g)%nat.

(** [inference_callback], the console output left out. *)
Definition inference_callback (is_understood : bool) (g : globals) : globals :=
  if is_understood then start_startServo g else g.

(** ** The button and the display loop *)

(** The button is the list of the numbers the successive reads of the
    value file give ([readButton] returns [atoi] of the line read); each
    call of [yellowButtonPressed] takes the next one. *)
Definition yellowButtonPressed (button : list Z) : result (bool * list Z) :=
  match button with
  | [] => Blocked
  | v :: rest => Done (v =? 1, rest)
  end.

(** [while (yellowButtonPressed()) {};] *)
Fixpoint debounce (button : list Z) : result (list Z) :=
  match button with
  | [] => Blocked
  | v :: rest => if v =? 1 then debounce rest else Done rest
  end.

Section DisplayLoop.

Variable char_is_signed : bool.

(** What a turn of the display loop leaves: the variables, the unread
    button values, the trace, and how many times [switchMode] was
    called. *)
Definition turn : Type := (globals * list Z * trace * nat)%type.

(** One turn of the loop of [displayButton]. *)
Definition displayTurn (button : list Z) (g : globals) : result turn :=
  p <- yellowButtonPressed button ;;
  let (pressed, button1) := p in
  s <- (if pressed then
          button2 <- debounce button1 ;;
          Done (switchMode g, button2, sleepForMs 100, 1%nat)
        else Done (g, button1, [], 0%nat)) ;;
  let '(g1, button2, t1, switched) := s in
  let t2 := if servoTurnedOn g1 then writeSmileyFace ++ sleepForMs 5000
            else [] in
  t3 <- (if mode g1 =? 0 then displayMode char_is_signed "M0"
         else if mode g1 =? 1 then displayMode char_is_signed "M1"
         else if mode g1 =? 2 then displayMode char_is_signed "M2"
         else Done []) ;;
  Done (g1, button2, clearDisplay ++ t1 ++ t2 ++ t3 ++ sleepForMs 100, switched).

(** [while (!stopButton) { ... }], cut after [turns] turns: no statement of
    the loop writes [stopButton], so on its own the loop does not end. *)
Fixpoint displayButton (turns : nat) (button : list Z) (g : globals)
  : result turn :=
  match turns with
  | O => Done (g, button, [], O)
  | S turns' =>
      if stopButton g then Done (g, button, [], O)
      else
        r <- displayTurn button g ;;
        let '(g1, button1, t1, n1) := r in
        r' <- displayButton turns' button1 g1 ;;
        let '(g2, button2, t2, n2) := r' in
        Done (g2, button2, t1 ++ t2, (n1 + n2)%nat)
  end.

End DisplayLoop.

Definition display_stopButton (g : globals) : globals :=
  set_stopButton true g.

(** ** The operations on the shared variables *)

(** The functions of the program that write a shared variable, called
    or run by one of its threads; and, for the states in the middle of
    these functions that another thread can see, the single statements of
    the servo code that write one: the assignments to [servoTurnedOn] (in
    the turn of the control loop and in [stop_stopServo]), the assignments
    to [stopServo] (in [stop_stopServo] and in [start_startServo]), the
    creation of the thread and its return. *)
Inductive operation : Type :=
  | CallSwitchMode
  | CallStartServo
  | CallStopServo
  | CallInferenceCallback (is_understood : bool)
  | RunServoCycle (timeToSleep : Z)
  | RunServoThread (fuel : nat) (timeToSleep : Z)
  | RunDisplayTurn (button : list Z)
  | RunDisplayLoop (turns : nat) (button : list Z)
  | CallDisplayStopButton
  | StoreServoTurnedOn (b : bool)
  | StoreStopServo (b : bool)
  | CreateServoThread
  | ServoThreadReturns.

Section Program.

Variable char_is_signed : bool.

(** The variables after an operation; an operation that does not come to
    its end leaves them as they were. *)
Definition perform (op : operation) (g : globals) : globals :=
  match op with
  | CallSwitchMode => switchMode g
  | CallStartServo => start_startServo g
  | CallStopServo => stop_stopServo g
  | CallInferenceCallback is_understood => inference_callback is_understood g
  | RunServoCycle timeToSleep => fst (servoCycle timeToSleep g)
  | RunServoThread fuel timeToSleep =>
      match turningServoMotor fuel timeToSleep g with
      | Done (g', _, _) => g'
      | _ => g
      end
  | RunDisplayTurn button =>
      match displayTurn char_is_signed button g with
      | Done (g', _, _, _) => g'
      | _ => g
      end
  | RunDisplayLoop turns button =>
      match displayButton char_is_signed turns button g with
      | Done (g', _, _, _) => g'
      | _ => g
      end
  | CallDisplayStopButton => display_stopButton g
  | StoreServoTurnedOn b => set_servoTurnedOn b g
  | StoreStopServo b => set_stopServo b g
  | CreateServoThread => pthread_create_servo g
  | ServoThreadReturns => set_servoThreads (pred (servoThreads g)) g
  end.

(** The states of the variables the program can come to. *)
Inductive reachable : globals -> Prop :=
  | reachable_initial : reachable initial
  | reachable_perform : forall op g,
      reachable g -> reachable (perform op g).

End Program.

(** The operations on whose path there is a call of [switchMode]. *)
Definition callsSwitchMode (op : operation) : bool :=
  match op with
  | CallSwitchMode | RunDisplayTurn _ | RunDisplayLoop _ _ => true
  | _ => false
  end.

Definition validMode (m : Z) : Prop := m = 0 \/ m = 1 \/ m = 2.

(** ** The command line *)

(** The variables [picovoice_main] sets from its options. A path is [None]
    while its pointer is NULL. The sensitivities, the endpoint duration and
    the device index are kept as the argument that [strtof] or [strtol] is
    applied to, [None] while they have their initial value. *)
Record options : Type := mkOptions {
  library_path : option string;
  access_key : option string;
  keyword_path : option string;
  context_path : option string;
  porcupine_sensitivity : option string;
  porcupine_model_path : option string;
  rhino_sensitivity : option string;
  rhino_model_path : option string;
  endpoint_duration_sec : option string;
  require_endpoint : bool;
  device_index : option string
}.

Definition initialOptions : options :=
  mkOptions None None None None None None None None None true None.

(** How the option handling of [picovoice_main] ends: it calls
    [show_audio_devices] and returns 0, it prints the usage and exits
    with 1, or it goes on to load the library. *)
Inductive parsed : Type :=
  | ShowAudioDevices
  | UsageExit
  | Proceed (o : options).

(** The test after the loop, for the options that must be given. *)
Definition requiredCheck (o : options) : parsed :=
  match library_path o, keyword_path o, context_path o, access_key o,
        porcupine_model_path o, rhino_model_path o with
  | Some _, Some _, Some _, Some _, Some _, Some _ => Proceed o
  | _, _, _, _, _, _ => UsageExit
  end.

(** The [switch] on one value of [getopt_long] with its [optarg]: the
    options after it, or the end of the function. *)
Definition optionCase (c : ascii) (optarg : string) (o : options)
  : options + parsed :=
  if Ascii.eqb c "d" then inr ShowAudioDevices
  else if Ascii.eqb c "l" then
    inl (mkOptions (Some optarg) (access_key o) (keyword_path o)
           (context_path o) (porcupine_sensitivity o) (porcupine_model_path o)
           (rhino_sensitivity o) (rhino_model_path o) (endpoint_duration_sec o)
           (require_endpoint o) (device_index o))
  else if Ascii.eqb c "a" then
    inl (mkOptions (library_path o) (Some optarg) (keyword_path o)
           (context_path o) (porcupine_sensitivity o) (porcupine_model_path o)
           (rhino_sensitivity o) (rhino_model_path o) (endpoint_duration_sec o)
           (require_endpoint o) (device_index o))
  else if Ascii.eqb c "k" then
    inl (mkOptions (library_path o) (access_key o) (Some optarg)
           (context_path o) (porcupine_sensitivity o) (porcupine_model_path o)
           (rhino_sensitivity o) (rhino_model_path o) (endpoint_duration_sec o)
           (require_endpoint o) (device_index o))
  else if Ascii.eqb c "c" then
    inl (mkOptions (library_path o) (access_key o) (keyword_path o)
           (Some optarg) (porcupine_sensitivity o) (porcupine_model_path o)
           (rhino_sensitivity o) (rhino_model_path o) (endpoint_duration_sec o)
           (require_endpoint o) (device_index o))
  else if Ascii.eqb c "s" then
    inl (mkOptions (library_path o) (access_key o) (keyword_path o)
           (context_path o) (Some optarg) (porcupine_model_path o)
           (rhino_sensitivity o) (rhino_model_path o) (endpoint_duration_sec o)
           (require_endpoint o) (device_index o))
  else if Ascii.eqb c "p" then
    inl (mkOptions (library_path o) (access_key o) (keyword_path o)
           (context_path o) (porcupine_sensitivity o) (Some optarg)
           (rhino_sensitivity o) (rhino_model_path o) (endpoint_duration_sec o)
           (require_endpoint o) (device_index o))
  else if Ascii.eqb c "t" then
    inl (mkOptions (library_path o) (access_key o) (keyword_path o)
           (context_path o) (porcupine_sensitivity o) (porcupine_model_path o)
           (Some optarg) (rhino_model_path o) (endpoint_duration_sec o)
           (require_endpoint o) (device_index o))
  else if Ascii.eqb c "r" then
    inl (mkOptions (library_path o) (access_key o) (keyword_path o)
           (context_path o) (porcupine_sensitivity o) (porcupine_model_path o)
           (rhino_sensitivity o) (Some optarg) (endpoint_duration_sec o)
           (require_endpoint o) (device_index o))
  else if Ascii.eqb c "u" then
    inl (mkOptions (library_path o) (access_key o) (keyword_path o)
           (context_path o) (porcupine_sensitivity o) (porcupine_model_path o)
           (rhino_sensitivity o) (rhino_model_path o) (Some optarg)
           (require_endpoint o) (device_index o))
  else if Ascii.eqb c "e" then
    inl (mkOptions (library_path o) (access_key o) (keyword_path o)
           (context_path o) (porcupine_sensitivity o) (porcupine_model_path o)
           (rhino_sensitivity o) (rhino_model_path o) (endpoint_duration_sec o)
           (if String.eqb optarg "false" then false else require_endpoint o)
           (device_index o))
  else if Ascii.eqb c "i" then
    inl (mkOptions (library_path o) (access_key o) (keyword_path o)
           (context_path o) (porcupine_sensitivity o) (porcupine_model_path o)
           (rhino_sensitivity o) (rhino_model_path o) (endpoint_duration_sec o)
           (require_endpoint o) (Some optarg))
  else inr UsageExit.

(** [while ((c = getopt_long(...)) != -1) switch (c) ...] over the values
    [getopt_long] returns in turn, each with its [optarg], and then the test
    for the options that must be given. *)
Fixpoint optionLoop (opts : list (ascii * string)) (o : options) : parsed :=
  match opts with
  | [] => requiredCheck o
  | (c, optarg) :: rest =>
      match optionCase c optarg o with
      | inl o' => optionLoop rest o'
      | inr end_ => end_
      end
  end.

Definition picovoiceOptions (opts : list (ascii * string)) : parsed :=
  optionLoop opts initialOptions.

(** ** Vocabulary of the specification *)

(** A symbol is present in the glyph table when an entry carries it. *)
Definition InTable (c : ascii) : Prop :=
  exists e, In e matrix /\ digit e = c.

(** The glyph of a symbol, read off the table. *)
Definition glyphOf (c : ascii) : option matrixData :=
  find (fun e => Ascii.eqb (digit e) c) matrix.

(** The total width of the glyphs of a text. *)
Fixpoint totalWidth (text : string) : Z :=
  match text with
  | EmptyString => 0
  | String c rest =>
      match glyphOf c with
      | Some e => cols e + totalWidth rest
      | None => 0
      end
  end.

(** Row [i] of the frame of a text as the specification words it: the
    bitwise or of row [i] of each glyph, shifted by 8, less the width of the
    glyph, less the running column. *)
Fixpoint specRow (i : nat) (running_column : Z) (text : string) : Z :=
  match text with
  | EmptyString => 0
  | String c rest =>
      match glyphOf c with
      | Some e =>
          Z.lor (Z.shiftr (nth i (rowBitArr e) 0) (8 - cols e - running_column))
                (specRow i (running_column + cols e) rest)
      | None => 0
      end
  end.

Definition specFrame (text : string) : list Z :=
  map (fun i => specRow i 0 text) (seq 0 8).

Definition byte (b : Z) : Prop := 0 <= b < 256.

(** The inverse rotation of the specification: an 8-bit rotate left by
    one. *)
Definition rotateLeft1 (physical_row : Z) : Z :=
  (Z.lor (Z.shiftl physical_row 1) (Z.shiftr physical_row 7)) mod 256.

(** Bit [i] of an 8-bit rotate right by one is bit [i + 1] of the byte,
    and bit 7 is bit 0. *)
Definition isRotateRight1 (f : Z -> Z) (b : Z) : bool :=
  forallb (fun i => Bool.eqb (Z.testbit (f b) i) (Z.testbit b ((i + 1) mod 8)))
          [0; 1; 2; 3; 4; 5; 6; 7]
  && (0 <=? f b) && (f b <? 256).

(** The steps of a release profile, in the units of the specification. *)
Inductive pwmStep : Type :=
  | WritePeriod (ns : Z)
  | WriteEnable (v : Z)
  | WriteDutyCycle (ns : Z)
  | Wait (ms : Z).

(** The number a string of decimal digits writes. *)
Fixpoint decimal (acc : Z) (s : string) : option Z :=
  match s with
  | EmptyString => Some acc
  | String c rest =>
      let d := Z.of_nat (nat_of_ascii c) - 48 in
      if (0 <=? d) && (d <=? 9) then decimal (10 * acc + d) rest else None
  end.

(** The step of a profile an access to the PWM files or a sleep is. *)
Definition pwmStepOf (ev : event) : option pwmStep :=
  match ev with
  | FileWrite location value =>
      match decimal 0 value with
      | Some n =>
          if String.eqb location pwm_period then Some (WritePeriod n)
          else if String.eqb location pwm_enable then Some (WriteEnable n)
          else if String.eqb location pwm_duty_cycle then Some (WriteDutyCycle n)
          else None
      | None => None
      end
  | Nanosleep seconds nanoseconds =>
      if nanoseconds mod 1000000 =? 0
      then Some (Wait (seconds * 1000 + nanoseconds / 1000000))
      else None
  | _ => None
  end.

(** The argument of the last option [c] of a command line, [start] if
    there is none. *)
Definition lastArg (c : ascii) (opts : list (ascii * string))
    (start : option string) : option string :=
  fold_left (fun acc p => if Ascii.eqb (fst p) c then Some (snd p) else acc)
            opts start.

(** The variable an option with an argument is stored in. *)
Definition optionVariable (c : ascii) (o : options) : option string :=
  if Ascii.eqb c "l" then library_path o
  else if Ascii.eqb c "a" then access_key o
  else if Ascii.eqb c "k" then keyword_path o
  else if Ascii.eqb c "c" then context_path o
  else if Ascii.eqb c "s" then porcupine_sensitivity o
  else if Ascii.eqb c "p" then porcupine_model_path o
  else if Ascii.eqb c "t" then rhino_sensitivity o
  else if Ascii.eqb c "r" then rhino_model_path o
  else if Ascii.eqb c "u" then endpoint_duration_sec o
  else if Ascii.eqb c "i" then device_index o
  else None.

(** The options that store their argument, and among them those that must
    be given. *)
Definition storedOptions : list ascii :=
  ["l"; "a"; "k"; "c"; "s"; "p"; "t"; "r"; "u"; "i"]%char.
Definition requiredOptions : list ascii :=
  ["l"; "a"; "k"; "c"; "p"; "r"]%char.

(** The options the [switch] has a case for, [d] left out. *)
Definition settingOption (c : ascii) : bool :=
  existsb (Ascii.eqb c) ("e" :: storedOptions)%char.

(** The label the display loop draws for a mode. *)
Definition modeLabel (m : Z) : string :=
  String "M" (String (ascii_of_nat (48 + Z.to_nat m)) EmptyString).

(** The reads of the button file over a row of presses, each held for one
    read and [n] more, and released for one read. *)
Definition buttonOfPresses (presses : list nat) : list Z :=
  flat_map (fun n => repeat 1 (S n) ++ [0]) presses.

(** The variables after a row of inferences. *)
Definition inferences (understood : list bool) (g : globals) : globals :=
  fold_left (fun g' b => inference_callback b g') understood g.

(** The variables after a row of operations. *)
Definition performAll (char_is_signed : bool) (ops : list operation)
    (g : globals) : globals :=
  fold_left (fun g' op => perform char_is_signed op g') ops g.

(** ** The control loop among the other threads *)



(** The operations that assign [stopServo]. *)
Definition writesStopServo (op : operation) : bool :=
  match op with
  | CallStartServo | CallStopServo | CallInferenceCallback true
  | RunServoCycle _ | RunServoThread _ _ | StoreStopServo _ => true
  | _ => false
  end.

Section Among.

Variable char_is_signed : bool.

(** The loop of [turningServoMotor] with the other threads at work:
    [others] lists what they do to the shared variables before each test
    of the loop, first what comes before the first test, then what comes
    between the first turn and the second test, and so on; past the end of
    the list they do nothing. *)
Fixpoint turningServoLoopAmong (fuel : nat) (timeToSleep : Z)
    (others : list (list operation)) (g : globals)
  : result (globals * trace * nat) :=
  let g0 := performAll char_is_signed (hd [] others) g in
  if stopServo g0 then Done (g0, [], O)
  else
    match fuel with
    | O => Timeout
    | S fuel' =>
        let (g1, t1) := servoCycle timeToSleep g0 in
        r <- turningServoLoopAmong fuel' timeToSleep (tl others) g1 ;;
        let '(g2, t2, n) := r in
        Done (g2, t1 ++ t2, S n)
    end.

Definition turningServoMotorAmong (fuel : nat) (timeToSleep : Z)
    (others : list (list operation)) (g : globals)
  : result (globals * trace * nat) :=
  r <- turningServoLoopAmong fuel timeToSleep others g ;;
  let '(g1, t, n) := r in
  Done (set_servoThreads (pred (servoThreads g1)) g1, t, n).

End Among.

(** * Properties *)

(** ** Glyph lookup *)

Lemma matrix_length : List.length matrix = 13%nat.
Proof. reflexivity. Qed.

Lemma matrix_no_EMPTY : forall e, In e matrix -> digit e <> EMPTY.
Proof.
  intros e He. unfold matrix in He. simpl in He.
  repeat (destruct He as [<- | He]; [ discriminate | ]).
  contradiction.
Qed.

Lemma matrix_cols : forall e, In e matrix -> 1 <= cols e <= 4.
Proof.
  intros e He. unfold matrix in He. simpl in He.
  repeat (destruct He as [<- | He]; [ simpl; lia | ]).
  contradiction.
Qed.

Lemma matrix_rows : forall e, In e matrix ->
  List.length (rowBitArr e) = 8%nat /\ Forall (fun r => 0 <= r < 128) (rowBitArr e).
Proof.
  intros e He. unfold matrix in He. simpl in He.
  repeat (destruct He as
            [<- | He]; [ split; [ reflexivity | repeat constructor; lia ] | ]).
  contradiction.
Qed.

(** The scan stops with NULL only at an entry whose symbol is [EMPTY]. *)
Lemma scan_Null : forall tbl i c,
  scanForHexData tbl i c = Null -> exists e, In e tbl /\ digit e = EMPTY.
Proof.
  induction tbl as [| e rest IH]; intros i c H; simpl in H.
  - discriminate.
  - destruct (Ascii.eqb (digit e) EMPTY) eqn:E0.
    + exists e. split; [ left; reflexivity | now apply Ascii.eqb_eq ].
    + destruct (Ascii.eqb (digit e) c); [ discriminate | ].
      destruct (IH _ _ H) as (e' & Hin & Hd).
      exists e'. split; [ right; exact Hin | exact Hd ].
Qed.

(** What the scan finds is the entry at the index it reports, and that
    entry carries the symbol looked for. *)
Lemma scan_Found : forall tbl i c j e,
  scanForHexData tbl i c = Found j e ->
  (i <= j)%nat /\ nth_error tbl (j - i) = Some e /\ digit e = c.
Proof.
  induction tbl as [| e0 rest IH]; intros i c j e H; simpl in H.
  - discriminate.
  - destruct (Ascii.eqb (digit e0) EMPTY); [ discriminate | ].
    destruct (Ascii.eqb (digit e0) c) eqn:Ec.
    + injection H as <- <-. rewrite Nat.sub_diag.
      split; [ lia | split; [ reflexivity | now apply Ascii.eqb_eq ] ].
    + destruct (IH _ _ _ _ H) as (Hle & Hnth & Hd).
      split; [ lia | split; [ | exact Hd ] ].
      replace (j - i)%nat with (S (j - S i)) by lia. exact Hnth.
Qed.

(** Over a table without an [EMPTY] entry the scan agrees with [find] where
    the symbol is present, and walks off the end where it is not. *)
Lemma scan_find : forall tbl i c,
  (forall e, In e tbl -> digit e <> EMPTY) ->
  match find (fun e => Ascii.eqb (digit e) c) tbl with
  | Some e => exists j, scanForHexData tbl i c = Found j e
  | None => scanForHexData tbl i c = OutOfBounds (i + List.length tbl)
  end.
Proof.
  induction tbl as [| e rest IH]; intros i c Hne; simpl.
  - f_equal. lia.
  - assert (E0 : Ascii.eqb (digit e) EMPTY = false).
    { apply Ascii.eqb_neq. apply Hne. left; reflexivity. }
    rewrite E0. destruct (Ascii.eqb (digit e) c) eqn:Ec.
    + exists i. reflexivity.
    + specialize (IH (S i) c (fun e' H => Hne e' (or_intror H))).
      destruct (find _ rest).
      * exact IH.
      * rewrite IH. f_equal. lia.
Qed.

Lemma glyphOf_present : forall c, InTable c -> exists e,
  glyphOf c = Some e /\ In e matrix /\ digit e = c.
Proof.
  intros c (e & Hin & Hd). unfold glyphOf.
  destruct (find (fun e0 => Ascii.eqb (digit e0) c) matrix) as [e' |] eqn:F.
  - exists e'. split; [ reflexivity | ].
    apply find_some in F. destruct F as [Hin' Heq].
    split; [ exact Hin' | now apply Ascii.eqb_eq ].
  - exfalso. pose proof (find_none _ _ F e Hin) as Hn. simpl in Hn.
    apply Ascii.eqb_neq in Hn. contradiction.
Qed.

Lemma glyphOf_absent : forall c, ~ InTable c -> glyphOf c = None.
Proof.
  intros c Hc. unfold glyphOf.
  destruct (find (fun e0 => Ascii.eqb (digit e0) c) matrix) as [e' |] eqn:F.
  - exfalso. apply Hc. apply find_some in F. destruct F as [Hin Heq].
    exists e'. split; [ exact Hin | now apply Ascii.eqb_eq ].
  - reflexivity.
Qed.

Lemma searchForHexData_glyphOf : forall c e,
  glyphOf c = Some e -> exists j, searchForHexData c = Found j e.
Proof.
  intros c e F. unfold searchForHexData.
  pose proof (scan_find matrix 0 c matrix_no_EMPTY) as H.
  unfold glyphOf in F. rewrite F in H. exact H.
Qed.

(** No two entries of the table carry the same symbol. *)
Lemma matrix_digit_inj : forall e1 e2,
  In e1 matrix -> In e2 matrix -> digit e1 = digit e2 -> e1 = e2.
Proof.
  intros e1 e2 H1 H2. unfold matrix in H1, H2. simpl in H1, H2.
  repeat (destruct H1 as [<- | H1]);
    try contradiction;
    repeat (destruct H2 as [<- | H2]);
    try contradiction; simpl; intros E; try reflexivity; discriminate E.
Qed.

Lemma searchForHexData_present : forall e,
  In e matrix -> exists j, searchForHexData (digit e) = Found j e.
Proof.
  intros e He.
  destruct (glyphOf_present (digit e)) as (e' & F & Hin & Hd).
  { exists e. split; [ exact He | reflexivity ]. }
  apply searchForHexData_glyphOf.
  rewrite F. f_equal. apply matrix_digit_inj; assumption.
Qed.

Lemma searchForHexData_absent : forall c,
  ~ InTable c -> searchForHexData c = OutOfBounds 13.
Proof.
  intros c Hc. unfold searchForHexData.
  pose proof (scan_find matrix 0 c matrix_no_EMPTY) as H.
  fold (glyphOf c) in H. rewrite (glyphOf_absent c Hc) in H. exact H.
Qed.

(** C7. Looking up a symbol of the table returns the entry that carries it.
    Looking up the letter A, which is not in the table, does not come to
    the [return NULL] of the scan: the scan reads [matrix[13]], one past
    the last entry, and the renderer called on that letter has no frame to
    show. *)
Theorem glyph_lookup_present_and_letter_A :
  (forall e, In e matrix -> exists j, searchForHexData (digit e) = Found j e)
  /\ searchForHexData "A" = OutOfBounds 13
  /\ (forall char_is_signed, displayMode char_is_signed "A" = Fault).
Proof.
  split; [ exact searchForHexData_present | ].
  split; [ reflexivity | ].
  intros cs. reflexivity.
Qed.

(** C9. The scan returns NULL only at an entry whose symbol is [EMPTY]; no
    entry of the 13-entry table has that symbol; so for every symbol that is
    not in the table the scan reaches index 13, past the last valid index
    12, and returns no entry of the table. *)
Theorem absent_symbol_scan_leaves_table :
  (forall tbl i c, scanForHexData tbl i c = Null ->
                   exists e, In e tbl /\ digit e = EMPTY)
  /\ List.length matrix = 13%nat
  /\ (forall e, In e matrix -> digit e <> EMPTY)
  /\ (forall c, ~ InTable c ->
        searchForHexData c = OutOfBounds 13
        /\ (12 < 13)%nat
        /\ nth_error matrix 13 = None
        /\ forall j e, searchForHexData c <> Found j e).
Proof.
  split; [ exact scan_Null | ].
  split; [ exact matrix_length | ].
  split; [ exact matrix_no_EMPTY | ].
  intros c Hc. pose proof (searchForHexData_absent c Hc) as H.
  split; [ exact H | ].
  split; [ lia | ].
  split; [ reflexivity | ].
  intros j e. rewrite H. discriminate.
Qed.

(** ** The rendered frame *)

Lemma to_uchar_byte : forall b, byte b -> to_uchar b = b.
Proof. intros b Hb. unfold to_uchar. apply Z.mod_small. exact Hb. Qed.

Lemma to_char_small : forall cs n, 0 <= n < 128 -> to_char cs n = n.
Proof.
  intros cs n Hn. unfold to_char, to_schar, to_uchar. destruct cs.
  - rewrite Z.mod_small by lia. lia.
  - apply Z.mod_small. lia.
Qed.

Lemma shiftr_small : forall r s, 0 <= s -> 0 <= r < 128 ->
  0 <= Z.shiftr r s < 128.
Proof.
  intros r s Hs Hr. rewrite Z.shiftr_div_pow2 by exact Hs.
  assert (0 < 2 ^ s) by (apply Z.pow_pos_nonneg; lia).
  split.
  - apply Z.div_pos; lia.
  - apply Z.le_lt_trans with r; [ | lia ].
    apply Z.div_le_upper_bound; [ lia | ]. nia.
Qed.

Lemma lor_byte : forall a b, byte a -> byte b -> byte (Z.lor a b).
Proof.
  intros a b Ha Hb. unfold byte in *.
  assert (Hn : 0 <= Z.lor a b) by (apply Z.lor_nonneg; lia).
  split; [ exact Hn | ].
  destruct (Z.eq_dec (Z.lor a b) 0) as [E | E]; [ lia | ].
  change 256 with (2 ^ 8). apply Z.log2_lt_pow2; [ lia | ].
  rewrite Z.log2_lor by lia.
  apply Z.max_lub_lt.
  - destruct (Z.eq_dec a 0) as [-> | Ea]; [ simpl; lia | ].
    apply Z.log2_lt_pow2; simpl; lia.
  - destruct (Z.eq_dec b 0) as [-> | Eb]; [ simpl; lia | ].
    apply Z.log2_lt_pow2; simpl; lia.
Qed.

Lemma shiftLeftOnMatrixBy_right : forall cs s r, 0 <= s -> 0 <= r < 128 ->
  shiftLeftOnMatrixBy cs s r = Z.shiftr r s.
Proof.
  intros cs s r Hs Hr. unfold shiftLeftOnMatrixBy.
  destruct (0 <=? s) eqn:E; [ | apply Z.leb_gt in E; lia ].
  apply to_char_small. apply shiftr_small; assumption.
Qed.

Lemma shiftLeftOnMatrixBy_zero : forall cs s, shiftLeftOnMatrixBy cs s 0 = 0.
Proof.
  intros cs s. unfold shiftLeftOnMatrixBy.
  rewrite Z.shiftr_0_l, Z.shiftl_0_l.
  destruct (0 <=? s); apply to_char_small; lia.
Qed.

Lemma orRows_length : forall cs s frame rows,
  List.length (orRows cs s frame rows) = List.length frame.
Proof.
  induction frame as [| f frame IH]; intros rows; [ reflexivity | ].
  destruct rows as [| r rows]; simpl; [ reflexivity | ].
  f_equal. apply IH.
Qed.

Lemma orRows_byte : forall cs s frame rows,
  Forall byte frame -> Forall byte (orRows cs s frame rows).
Proof.
  induction frame as [| f frame IH]; intros rows Hf; [ constructor | ].
  destruct rows as [| r rows]; simpl; [ exact Hf | ].
  inversion Hf as [| ? ? Hb Hrest]; subst. constructor.
  - unfold byte, to_uchar. apply Z.mod_pos_bound. lia.
  - apply IH. exact Hrest.
Qed.

Lemma orRows_blank : forall cs s n frame,
  Forall byte frame -> orRows cs s frame (repeat 0 n) = frame.
Proof.
  induction n as [| n IH]; intros frame Hf.
  - destruct frame; reflexivity.
  - destruct frame as [| f frame]; [ reflexivity | ].
    inversion Hf as [| ? ? Hb Hrest]; subst. simpl.
    rewrite shiftLeftOnMatrixBy_zero, Z.lor_0_r, (to_uchar_byte f Hb).
    f_equal. apply IH. exact Hrest.
Qed.

Lemma orRows_nth : forall cs s frame rows i,
  0 <= s ->
  Forall byte frame ->
  Forall (fun r => 0 <= r < 128) rows ->
  List.length frame = List.length rows ->
  (i < List.length frame)%nat ->
  nth i (orRows cs s frame rows) 0
  = Z.lor (nth i frame 0) (Z.shiftr (nth i rows 0) s).
Proof.
  induction frame as [| f frame IH]; intros rows i Hs Hf Hr Hlen Hi.
  - simpl in Hi. lia.
  - destruct rows as [| r rows]; [ discriminate Hlen | ].
    inversion Hf as [| ? ? Hb Hrest]; subst.
    inversion Hr as [| ? ? Hr0 Hrrest]; subst.
    simpl orRows. destruct i as [| i].
    + simpl. rewrite shiftLeftOnMatrixBy_right by assumption.
      apply to_uchar_byte. apply lor_byte; [ exact Hb | ].
      pose proof (shiftr_small r s Hs Hr0). unfold byte. lia.
    + simpl. apply IH; try assumption.
      * simpl in Hlen. lia.
      * simpl in Hi. lia.
Qed.

(** One turn of the column loop, as an equation. *)
Lemma displayColumns_turn : forall cs fuel col display frame,
  displayColumns cs (S fuel) col display frame
  = if col <? numberOfMatrixCols then
      let current := if Ascii.eqb (deref display) EMPTY then " "%char
                     else deref display in
      let display' := if Ascii.eqb (deref display) EMPTY then display
                      else advance display in
      e <- callMatrixObject (searchForHexData current) ;;
      displayColumns cs fuel (col + cols e) display'
        (orRows cs (numberOfMatrixCols - cols e - col) frame (rowBitArr e))
    else Done frame.
Proof. reflexivity. Qed.

Lemma displayColumns_end : forall cs fuel col display frame,
  numberOfMatrixCols <= col ->
  displayColumns cs fuel col display frame = Done frame.
Proof.
  intros cs fuel col display frame H.
  destruct fuel; simpl;
    (destruct (col <? numberOfMatrixCols) eqn:E;
     [ apply Z.ltb_lt in E; lia | reflexivity ]).
Qed.

(** Past the end of the text the loop draws blanks, which leave the frame
    as it is. *)
Lemma displayColumns_blanks : forall cs fuel col frame,
  (Z.to_nat (numberOfMatrixCols - col) <= fuel)%nat ->
  Forall byte frame ->
  displayColumns cs fuel col EmptyString frame = Done frame.
Proof.
  induction fuel as [| fuel IH]; intros col frame Hfuel Hf.
  - apply displayColumns_end. unfold numberOfMatrixCols in *. lia.
  - rewrite displayColumns_turn.
    destruct (col <? numberOfMatrixCols) eqn:E; [ | reflexivity ].
    apply Z.ltb_lt in E.
    change (displayColumns cs fuel (col + 4) EmptyString
              (orRows cs (numberOfMatrixCols - 4 - col) frame (repeat 0 8))
            = Done frame).
    rewrite orRows_blank by exact Hf.
    apply IH; [ unfold numberOfMatrixCols in *; lia | exact Hf ].
Qed.

Lemma InTable_not_EMPTY : forall c, InTable c -> c <> EMPTY.
Proof.
  intros c (e & Hin & <-). apply matrix_no_EMPTY. exact Hin.
Qed.

(** The column loop over a text that fits: each row of the frame it leaves
    is the row it started from, or-ed with the row of the specification. *)
Lemma displayColumns_spec : forall cs text fuel col frame,
  (forall c, In c (list_ascii_of_string text) -> InTable c) ->
  0 <= col ->
  col + totalWidth text <= 8 ->
  (Z.to_nat (8 - col) <= fuel)%nat ->
  List.length frame = 8%nat ->
  Forall byte frame ->
  displayColumns cs fuel col text frame
  = Done (map (fun i => Z.lor (nth i frame 0) (specRow i col text)) (seq 0 8)).
Proof.
  induction text as [| c rest IH]; intros fuel col frame Hin Hcol Hw Hfuel Hlen Hf.
  - rewrite displayColumns_blanks by assumption. f_equal.
    do 9 (destruct frame as [| ? frame]; try discriminate Hlen).
    simpl. now rewrite !Z.lor_0_r.
  - assert (Hc : InTable c) by (apply Hin; left; reflexivity).
    destruct (glyphOf_present c Hc) as (e & Hg & He & Hd).
    destruct (searchForHexData_glyphOf c e Hg) as (j & Hs).
    pose proof (matrix_cols e He) as Hcols.
    destruct (matrix_rows e He) as (Hrl & Hrb).
    assert (Hw' : col + cols e + totalWidth rest <= 8).
    { simpl in Hw. rewrite Hg in Hw. lia. }
    assert (Hw0 : 0 <= totalWidth rest).
    { clear - rest. induction rest as [| a r IHr]; simpl; [ lia | ].
      destruct (glyphOf a) as [e |] eqn:G; [ | lia ].
      assert (In e matrix).
      { unfold glyphOf in G. apply find_some in G. tauto. }
      pose proof (matrix_cols e H). lia. }
    destruct fuel as [| fuel]; [ lia | ].
    rewrite displayColumns_turn.
    assert (E : (col <? numberOfMatrixCols) = true).
    { apply Z.ltb_lt. unfold numberOfMatrixCols. lia. }
    rewrite E. cbn [deref advance].
    assert (E0 : Ascii.eqb c EMPTY = false).
    { apply Ascii.eqb_neq. apply InTable_not_EMPTY. exact Hc. }
    rewrite E0. cbv zeta. rewrite Hs. cbn [bind callMatrixObject].
    rewrite IH.
    + f_equal. apply map_ext_in. intros i Hi. apply in_seq in Hi.
      rewrite orRows_nth; try assumption.
      * cbn [specRow]. rewrite Hg. unfold numberOfMatrixCols.
        now rewrite Z.lor_assoc.
      * unfold numberOfMatrixCols. lia.
      * congruence.
      * lia.
    + intros c' Hc'. apply Hin. right. exact Hc'.
    + lia.
    + lia.
    + lia.
    + rewrite orRows_length. exact Hlen.
    + apply orRows_byte. exact Hf.
Qed.

(** The fuel of [renderFrame] is enough for every text: each turn of the
    column loop adds the width of a glyph of the table, which is at least
    1. *)
Lemma displayColumns_no_Timeout : forall cs fuel col display frame,
  (Z.to_nat (numberOfMatrixCols - col) <= fuel)%nat ->
  displayColumns cs fuel col display frame <> Timeout.
Proof.
  induction fuel as [| fuel IH]; intros col display frame Hfuel.
  - rewrite displayColumns_end; [ discriminate | ].
    unfold numberOfMatrixCols in *. lia.
  - rewrite displayColumns_turn.
    destruct (col <? numberOfMatrixCols) eqn:E; [ | discriminate ].
    cbv zeta.
    destruct (searchForHexData _) as [j e | | j] eqn:Hs;
      cbn [callMatrixObject bind]; try discriminate.
    apply scan_Found in Hs. destruct Hs as (_ & Hnth & _).
    apply nth_error_In in Hnth. pose proof (matrix_cols e Hnth).
    apply IH. apply Z.ltb_lt in E. unfold numberOfMatrixCols in *. lia.
Qed.

Lemma renderFrame_no_Timeout : forall cs display,
  renderFrame cs display <> Timeout.
Proof.
  intros cs display. unfold renderFrame.
  destruct (searchForHexData _); cbn [callMatrixObject bind]; try discriminate.
  apply displayColumns_no_Timeout. unfold numberOfMatrixCols. simpl. lia.
Qed.

(** C1. For every text whose symbols are all in the glyph table and whose
    glyphs are at most 8 columns wide in total, the frame the renderer
    builds is, row by row, the bitwise or of the rows of the glyphs, each
    shifted by 8, less the width of the glyph, less the running column, and
    it is this frame, warped, that is written to the display; and the frame
    of the empty text is all zero. *)
Theorem render_frame_is_or_of_shifted_glyphs :
  forall char_is_signed text,
    (forall c, In c (list_ascii_of_string text) -> InTable c) ->
    totalWidth text <= 8 ->
    renderFrame char_is_signed text = Done (specFrame text)
    /\ displayMatrix char_is_signed text
       = Done (writeMatrixByBytes (logicalFrame (specFrame text)))
    /\ renderFrame char_is_signed EmptyString = Done (repeat 0 8).
Proof.
  intros cs text Hin Hw.
  assert (Hframe : renderFrame cs text = Done (specFrame text));
    [ | split; [ exact Hframe | split; [ | destruct cs; reflexivity ] ];
        unfold displayMatrix; rewrite Hframe; reflexivity ].
  unfold renderFrame.
  assert (Hfirst : exists e,
             callMatrixObject
               (searchForHexData
                  (if Ascii.eqb (deref text) EMPTY then " "%char
                   else deref text)) = Done e).
  { destruct text as [| c rest]; simpl deref.
    - eexists. reflexivity.
    - assert (Hc : InTable c) by (apply Hin; left; reflexivity).
      pose proof (InTable_not_EMPTY c Hc) as Hne.
      apply Ascii.eqb_neq in Hne. rewrite Hne.
      destruct (glyphOf_present c Hc) as (e & Hg & _).
      destruct (searchForHexData_glyphOf c e Hg) as (j & Hs).
      exists e. rewrite Hs. reflexivity. }
  destruct Hfirst as (e & ->). cbn [bind].
  rewrite displayColumns_spec; try assumption; try lia.
  - reflexivity.
  - reflexivity.
  - repeat constructor; unfold byte; lia.
Qed.

(** The text M1 of the display loop is a text of the theorem. *)
Lemma render_frame_is_or_of_shifted_glyphs_witness :
  renderFrame false "M1" = Done (specFrame "M1")
  /\ displayMatrix false "M1"
     = Done (writeMatrixByBytes (logicalFrame (specFrame "M1")))
  /\ renderFrame false EmptyString = Done (repeat 0 8).
Proof.
  apply (render_frame_is_or_of_shifted_glyphs false "M1").
  - intros c Hc. simpl in Hc.
    destruct Hc as [<- | [<- | []]].
    + exists (mkMatrixData "M" [0x50; 0x70; 0x70; 0x50; 0x50; 0x50; 0x50; 0x00] 4).
      split; [ unfold matrix; simpl; tauto | reflexivity ].
    + exists (mkMatrixData "1" [0x20; 0x30; 0x20; 0x20; 0x20; 0x20; 0x70; 0x00] 4).
      split; [ unfold matrix; simpl; tauto | reflexivity ].
  - vm_compute. discriminate.
Defined.

(** ** The physical rows *)

Lemma byte_cases : forall P : Z -> bool,
  forallb P (map Z.of_nat (seq 0 256)) = true ->
  forall b, byte b -> P b = true.
Proof.
  intros P H b Hb. rewrite forallb_forall in H. apply H.
  replace b with (Z.of_nat (Z.to_nat b)) by (unfold byte in Hb; lia).
  apply in_map. apply in_seq. unfold byte in Hb. lia.
Qed.

Lemma warpFrame_rotates : forall b, byte b -> isRotateRight1 warpFrame b = true.
Proof. apply byte_cases. vm_compute. reflexivity. Qed.

Lemma rotateLeft1_warpFrame : forall b, byte b -> rotateLeft1 (warpFrame b) = b.
Proof.
  intros b Hb. apply Z.eqb_eq. revert b Hb.
  apply (byte_cases (fun b => rotateLeft1 (warpFrame b) =? b)).
  vm_compute. reflexivity.
Qed.

Lemma rotateLeft1_logicalFrame : forall frame,
  Forall byte frame -> map rotateLeft1 (logicalFrame frame) = frame.
Proof.
  induction frame as [| b frame IH]; intros Hf; [ reflexivity | ].
  inversion Hf as [| ? ? Hb Hrest]; subst. simpl.
  rewrite rotateLeft1_warpFrame by exact Hb. f_equal. apply IH. exact Hrest.
Qed.

(** C2. The transform applied to every row before it is sent is the 8-bit
    rotate right by one, [(b >> 1) | (b << 7)] modulo 256; for every logical
    frame of 8 bytes, rotating each row of the physical frame left by one
    gives the logical frame back; the transform takes 1 to 128 and 0 to
    0. *)
Theorem physical_rows_rotate_right_and_back :
  forall frame,
    List.length frame = 8%nat ->
    Forall byte frame ->
    logicalFrame frame = map warpFrame frame
    /\ (forall b, warpFrame b
                  = (Z.lor (Z.shiftr b 1) (Z.shiftl b 7)) mod 256)
    /\ (forall b, byte b -> isRotateRight1 warpFrame b = true)
    /\ map rotateLeft1 (logicalFrame frame) = frame
    /\ warpFrame 1 = 128
    /\ warpFrame 0 = 0.
Proof.
  intros frame Hlen Hf.
  split; [ reflexivity | ].
  split; [ reflexivity | ].
  split; [ exact warpFrame_rotates | ].
  split; [ apply rotateLeft1_logicalFrame; exact Hf | ].
  split; reflexivity.
Qed.

(** The frame of the text M0 is a frame of the theorem. *)
Lemma physical_rows_rotate_right_and_back_witness :
  List.length [37; 87; 87; 85; 85; 85; 37; 0] = 8%nat
  /\ Forall byte [37; 87; 87; 85; 85; 85; 37; 0]
  /\ map rotateLeft1 (logicalFrame [37; 87; 87; 85; 85; 85; 37; 0])
     = [37; 87; 87; 85; 85; 85; 37; 0].
Proof.
  assert (Hf : Forall byte [37; 87; 87; 85; 85; 85; 37; 0])
    by (repeat constructor; unfold byte; lia).
  split; [ reflexivity | ].
  split; [ exact Hf | ].
  apply (physical_rows_rotate_right_and_back [37; 87; 87; 85; 85; 85; 37; 0]
           eq_refl Hf).
Defined.

(** ** The mode *)

Lemma switchMode_mode : forall g,
  mode (switchMode g)
  = if mode g =? 0 then 1
    else if mode g =? 1 then 2
    else if mode g =? 2 then 0
    else mode g.
Proof.
  intros g. unfold switchMode.
  destruct (mode g =? 0); [ reflexivity | ].
  destruct (mode g =? 1); [ reflexivity | ].
  destruct (mode g =? 2); reflexivity.
Qed.

Lemma switchMode_validMode : forall g,
  validMode (mode g) -> validMode (mode (switchMode g)).
Proof.
  intros g H. rewrite switchMode_mode. unfold validMode in *.
  destruct H as [-> | [-> | ->]]; simpl; lia.
Qed.

Lemma switchMode_outside : forall g, ~ validMode (mode g) -> switchMode g = g.
Proof.
  intros g H. unfold switchMode, validMode in *.
  destruct (mode g =? 0) eqn:E0; [ apply Z.eqb_eq in E0; tauto | ].
  destruct (mode g =? 1) eqn:E1; [ apply Z.eqb_eq in E1; tauto | ].
  destruct (mode g =? 2) eqn:E2; [ apply Z.eqb_eq in E2; tauto | ].
  reflexivity.
Qed.

(** C3. On every mode of 0, 1 and 2 the switch takes the mode to its
    successor in the cycle 0, 1, 2, 0, and three switches in a row give
    the mode, and the variables, they started from. *)
Theorem switchMode_three_times :
  forall g,
    validMode (mode g) ->
    mode (switchMode g) = (mode g + 1) mod 3
    /\ mode (switchMode (switchMode (switchMode g))) = mode g
    /\ switchMode (switchMode (switchMode g)) = g.
Proof.
  intros [ss sb on m n] H. unfold validMode in H. simpl in H.
  destruct H as [-> | [-> | ->]]; repeat split; reflexivity.
Qed.

Lemma switchMode_three_times_witness :
  validMode (mode initial)
  /\ mode (switchMode initial) = (mode initial + 1) mod 3
  /\ mode (switchMode (switchMode (switchMode initial))) = mode initial
  /\ switchMode (switchMode (switchMode initial)) = initial.
Proof.
  split; [ left; reflexivity | ].
  apply (switchMode_three_times initial). left; reflexivity.
Defined.

(** ** The display loop *)

(** The three labels of the display loop are rendered without a fault. *)
Lemma displayMode_labels : forall cs,
  (exists t, displayMode cs "M0" = Done t)
  /\ (exists t, displayMode cs "M1" = Done t)
  /\ (exists t, displayMode cs "M2" = Done t).
Proof.
  intros cs. destruct cs; repeat split; eexists; vm_compute; reflexivity.
Qed.

(** The drawing at the end of a turn, after the mode [m]. *)
Lemma display_label_done : forall cs m, exists t,
  (if m =? 0 then displayMode cs "M0"
   else if m =? 1 then displayMode cs "M1"
   else if m =? 2 then displayMode cs "M2"
   else Done []) = Done t.
Proof.
  intros cs m. destruct (displayMode_labels cs) as ((t0 & H0) & (t1 & H1) & (t2 & H2)).
  destruct (m =? 0); [ exists t0; exact H0 | ].
  destruct (m =? 1); [ exists t1; exact H1 | ].
  destruct (m =? 2); [ exists t2; exact H2 | ].
  exists []. reflexivity.
Qed.

(** A turn that reads a released button calls no [switchMode]. *)
Lemma displayTurn_released : forall cs v button g,
  v <> 1 ->
  exists t, displayTurn cs (v :: button) g = Done (g, button, t, O).
Proof.
  intros cs v button g Hv. unfold displayTurn. cbn [yellowButtonPressed bind].
  apply Z.eqb_neq in Hv. rewrite Hv. cbn [bind].
  destruct (display_label_done cs (mode g)) as (t3 & ->). cbn [bind].
  eexists. reflexivity.
Qed.

(** The busy poll reads the button until it is released. *)
Lemma debounce_held : forall n v button,
  v <> 1 -> debounce (repeat 1 n ++ v :: button) = Done button.
Proof.
  induction n as [| n IH]; intros v button Hv; simpl.
  - apply Z.eqb_neq in Hv. rewrite Hv. reflexivity.
  - apply IH. exact Hv.
Qed.

(** A turn that reads a button held for [n] more reads, then released,
    calls [switchMode] once and has read the button up to its release. *)
Lemma displayTurn_pressed : forall cs n v button g,
  v <> 1 ->
  exists t,
    displayTurn cs (1 :: repeat 1 n ++ v :: button) g
    = Done (switchMode g, button, t, 1%nat).
Proof.
  intros cs n v button g Hv. unfold displayTurn.
  cbn [yellowButtonPressed bind]. rewrite Z.eqb_refl.
  rewrite debounce_held by exact Hv. cbn [bind].
  destruct (display_label_done cs (mode (switchMode g))) as (t3 & ->).
  cbn [bind]. eexists. reflexivity.
Qed.

(** Turns of the loop over a button that stays released. *)
Lemma displayButton_released : forall cs turns m g,
  stopButton g = false ->
  (turns <= m)%nat ->
  exists t,
    displayButton cs turns (repeat 0 m) g
    = Done (g, repeat 0 (m - turns), t, O).
Proof.
  induction turns as [| turns IH]; intros m g Hstop Hle.
  - exists []. simpl. rewrite Nat.sub_0_r. reflexivity.
  - destruct m as [| m]; [ lia | ].
    cbn [displayButton repeat]. rewrite Hstop.
    destruct (displayTurn_released cs 0 (repeat 0 m) g) as (t1 & ->); [ lia | ].
    cbn [bind].
    destruct (IH m g Hstop) as (t2 & ->); [ lia | ].
    cbn [bind]. eexists. reflexivity.
Qed.

Lemma switchMode_stopButton : forall g, stopButton (switchMode g) = stopButton g.
Proof.
  intros g. unfold switchMode.
  destruct (mode g =? 0); [ reflexivity | ].
  destruct (mode g =? 1); [ reflexivity | ].
  destruct (mode g =? 2); reflexivity.
Qed.

(** C8. A press that the button file shows for [n] reads in a row before
    it shows the released level advances the mode once, not [n] times:
    over those reads and [m] released ones after them, any number of turns
    of the display loop up to [m] calls [switchMode] once, so that the
    variables are those of one switch, and has read the button up to the
    last turn. *)
Theorem held_press_advances_mode_once :
  forall char_is_signed n m turns g,
    (1 <= n)%nat ->
    (1 <= turns <= m)%nat ->
    stopButton g = false ->
    exists t,
      displayButton char_is_signed turns (repeat 1 n ++ repeat 0 m) g
      = Done (switchMode g, repeat 0 (m - turns), t, 1%nat).
Proof.
  intros cs n m turns g Hn Hturns Hstop.
  destruct n as [| n]; [ lia | ].
  destruct m as [| m]; [ lia | ].
  destruct turns as [| turns]; [ lia | ].
  cbn [displayButton repeat app]. rewrite Hstop.
  destruct (displayTurn_pressed cs n 0 (repeat 0 m) g) as (t1 & ->); [ lia | ].
  cbn [bind].
  destruct (displayButton_released cs turns m (switchMode g)) as (t2 & ->).
  - rewrite switchMode_stopButton. exact Hstop.
  - lia.
  - cbn [bind]. replace (S m - S turns)%nat with (m - turns)%nat by lia.
    eexists. reflexivity.
Qed.

(** A press held for three reads, seen by a loop of two turns. *)
Lemma held_press_advances_mode_once_witness :
  exists t,
    displayButton false 2 (repeat 1 3 ++ repeat 0 2) initial
    = Done (switchMode initial, repeat 0 (2 - 2), t, 1%nat).
Proof.
  apply (held_press_advances_mode_once false 3 2 2 initial).
  - lia.
  - lia.
  - reflexivity.
Defined.

(** A turn of the display loop leaves the variables as they were or as one
    [switchMode] makes them. *)
Lemma displayTurn_globals : forall cs button g g' button' t n,
  displayTurn cs button g = Done (g', button', t, n) ->
  (g' = g /\ n = O) \/ (g' = switchMode g /\ n = 1%nat).
Proof.
  intros cs button g g' button' t n H. unfold displayTurn in H.
  destruct button as [| v button]; [ discriminate H | ].
  cbn [yellowButtonPressed bind] in H.
  destruct (v =? 1).
  - destruct (debounce button) as [button2 | | |]; try discriminate H.
    cbn [bind] in H.
    destruct (display_label_done cs (mode (switchMode g))) as (t3 & E).
    rewrite E in H. cbn [bind] in H. injection H as <- _ _ <-.
    right. split; reflexivity.
  - cbn [bind] in H.
    destruct (display_label_done cs (mode g)) as (t3 & E).
    rewrite E in H. cbn [bind] in H. injection H as <- _ _ <-.
    left. split; reflexivity.
Qed.

Lemma iter_switchMode_S : forall n g,
  Nat.iter n switchMode (switchMode g) = Nat.iter (S n) switchMode g.
Proof.
  induction n as [| n IH]; intros g; [ reflexivity | ].
  simpl. rewrite IH. reflexivity.
Qed.

(** The display loop leaves the variables as the calls of [switchMode] it
    made leave them. *)
Lemma displayButton_globals : forall cs turns button g g' button' t n,
  displayButton cs turns button g = Done (g', button', t, n) ->
  g' = Nat.iter n switchMode g.
Proof.
  induction turns as [| turns IH]; intros button g g' button' t n H.
  - simpl in H. injection H as <- _ _ <-. reflexivity.
  - cbn [displayButton] in H.
    destruct (stopButton g).
    + injection H as <- _ _ <-. reflexivity.
    + destruct (displayTurn cs button g) as [[[[g1 b1] t1] n1] | | |] eqn:E1;
        try discriminate H.
      cbn [bind] in H.
      destruct (displayButton cs turns b1 g1) as [[[[g2 b2] t2] n2] | | |] eqn:E2;
        try discriminate H.
      cbn [bind] in H. injection H as <- _ _ <-.
      apply IH in E2. subst g2.
      destruct (displayTurn_globals _ _ _ _ _ _ _ E1) as [[-> ->] | [-> ->]].
      * reflexivity.
      * apply iter_switchMode_S.
Qed.

Lemma iter_switchMode_validMode : forall n g,
  validMode (mode g) -> validMode (mode (Nat.iter n switchMode g)).
Proof.
  induction n as [| n IH]; intros g H; [ exact H | ].
  simpl. apply switchMode_validMode. apply IH. exact H.
Qed.

(** The servo loop and its thread leave the mode as it was. *)
Lemma turningServoLoop_mode : forall fuel timeToSleep g g' t n,
  turningServoLoop fuel timeToSleep g = Done (g', t, n) -> mode g' = mode g.
Proof.
  induction fuel as [| fuel IH]; intros timeToSleep g g' t n H.
  - simpl in H. destruct (stopServo g); [ | discriminate H ].
    injection H as <- _ _. reflexivity.
  - cbn [turningServoLoop] in H. destruct (stopServo g).
    + injection H as <- _ _. reflexivity.
    + cbn [servoCycle] in H.
      destruct (turningServoLoop fuel timeToSleep _)
        as [[[g2 t2] n2] | | |] eqn:E; try discriminate H.
      cbn [bind] in H. injection H as <- _ _.
      apply IH in E. exact E.
Qed.

(** What an operation does to the mode: an operation that does not call
    [switchMode] leaves it, and the others leave what their calls of
    [switchMode] leave. *)
Lemma perform_mode : forall cs op g,
  (callsSwitchMode op = false -> mode (perform cs op g) = mode g)
  /\ exists n, mode (perform cs op g) = mode (Nat.iter n switchMode g).
Proof.
  intros cs op g. destruct op; cbn [perform callsSwitchMode].
  - split; [ discriminate | ]. exists 1%nat. reflexivity.
  - split; [ reflexivity | ]. exists O. reflexivity.
  - split; [ reflexivity | ]. exists O. reflexivity.
  - assert (E : mode (inference_callback is_understood g) = mode g)
      by (destruct is_understood; reflexivity).
    split; [ intros _; exact E | ]. exists O. exact E.
  - split; [ reflexivity | ]. exists O. reflexivity.
  - assert (E : mode match turningServoMotor fuel timeToSleep g with
                     | Done (g', _, _) => g'
                     | _ => g
                     end = mode g).
    { unfold turningServoMotor.
      destruct (turningServoLoop fuel timeToSleep g)
        as [[[g1 t1] n1] | | |] eqn:E1; try reflexivity.
      cbn [bind]. apply turningServoLoop_mode in E1. exact E1. }
    split; [ intros _; exact E | ]. exists O. exact E.
  - split; [ discriminate | ].
    destruct (displayTurn cs button g) as [[[[g1 b1] t1] n1] | | |] eqn:E1;
      try (exists O; reflexivity).
    destruct (displayTurn_globals _ _ _ _ _ _ _ E1) as [[-> ->] | [-> ->]].
    + exists O. reflexivity.
    + exists 1%nat. reflexivity.
  - split; [ discriminate | ].
    destruct (displayButton cs turns button g) as [[[[g1 b1] t1] n1] | | |] eqn:E1;
      try (exists O; reflexivity).
    apply displayButton_globals in E1. subst g1. exists n1. reflexivity.
  - split; [ reflexivity | ]. exists O. reflexivity.
  - split; [ reflexivity | ]. exists O. reflexivity.
  - split; [ reflexivity | ]. exists O. reflexivity.
  - split; [ reflexivity | ]. exists O. reflexivity.
  - split; [ reflexivity | ]. exists O. reflexivity.
Qed.

(** C10. The mode is always 0, 1 or 2: it starts as 0; [switchMode] takes
    0 to 1, 1 to 2 and 2 to 0 and leaves any other value; an operation
    without a call of [switchMode] leaves the mode, and the others change it
    through [switchMode] only; so in every state the program can come to
    from the initial one the mode is 0, 1 or 2. *)
Theorem mode_stays_in_range :
  mode initial = 0
  /\ (forall g, mode (switchMode g)
                = if mode g =? 0 then 1
                  else if mode g =? 1 then 2
                  else if mode g =? 2 then 0
                  else mode g)
  /\ (forall g, ~ validMode (mode g) -> switchMode g = g)
  /\ (forall char_is_signed op g,
        callsSwitchMode op = false ->
        mode (perform char_is_signed op g) = mode g)
  /\ (forall char_is_signed op g, exists n,
        mode (perform char_is_signed op g) = mode (Nat.iter n switchMode g))
  /\ (forall char_is_signed op g,
        validMode (mode g) -> validMode (mode (perform char_is_signed op g)))
  /\ (forall char_is_signed g,
        reachable char_is_signed g -> validMode (mode g)).
Proof.
  assert (Hstep : forall cs op g,
             validMode (mode g) -> validMode (mode (perform cs op g))).
  { intros cs op g H. destruct (perform_mode cs op g) as (_ & n & ->).
    apply iter_switchMode_validMode. exact H. }
  split; [ reflexivity | ].
  split; [ exact switchMode_mode | ].
  split; [ exact switchMode_outside | ].
  split; [ intros cs op g; apply perform_mode | ].
  split; [ intros cs op g; apply perform_mode | ].
  split; [ exact Hstep | ].
  intros cs g H. induction H as [| op g H IH].
  - left. reflexivity.
  - apply Hstep. exact IH.
Qed.

(** ** The release profiles *)

(** C6. The profile of mode 0 writes the period 20,000,000 ns, writes the
    enable 1, writes the duty cycle 2,000,000 ns, waits 1 s and writes the
    duty cycle 1,000,000 ns, in this order; the profile of mode 2 does the
    same with a wait of 10 s; and these are the profiles the control loop
    runs in mode 0 and in mode 2. *)
Theorem release_profiles_mode0_mode2 :
  map pwmStepOf defaultRelease
  = [Some (WritePeriod 20000000); Some (WriteEnable 1);
     Some (WriteDutyCycle 2000000); Some (Wait (1 * 1000));
     Some (WriteDutyCycle 1000000)]
  /\ map pwmStepOf mode2Release
     = [Some (WritePeriod 20000000); Some (WriteEnable 1);
        Some (WriteDutyCycle 2000000); Some (Wait (10 * 1000));
        Some (WriteDutyCycle 1000000)]
  /\ defaultRelease
     = [FileWrite pwm_period "20000000"; FileWrite pwm_enable "1";
        FileWrite pwm_duty_cycle "2000000"; Nanosleep 1 0;
        FileWrite pwm_duty_cycle "1000000"]
  /\ mode2Release
     = [FileWrite pwm_period "20000000"; FileWrite pwm_enable "1";
        FileWrite pwm_duty_cycle "2000000"; Nanosleep 10 0;
        FileWrite pwm_duty_cycle "1000000"]
  /\ (forall timeToSleep g, mode g = 0 ->
        snd (servoCycle timeToSleep g)
        = defaultRelease ++ clearDisplay ++ sleepForMs 100)
  /\ (forall timeToSleep g, mode g = 2 ->
        snd (servoCycle timeToSleep g)
        = mode2Release ++ clearDisplay ++ sleepForMs 100).
Proof.
  split; [ reflexivity | ].
  split; [ reflexivity | ].
  split; [ reflexivity | ].
  split; [ reflexivity | ].
  split; intros timeToSleep g Hm; unfold servoCycle; rewrite Hm; reflexivity.
Qed.

(** ** The servo control loop *)

Lemma servoCycle_stops : forall timeToSleep g,
  fst (servoCycle timeToSleep g)
  = mkGlobals true (stopButton g) false (mode g) (servoThreads g).
Proof. reflexivity. Qed.

(** The control loop that a call of [start_startServo] starts, run on its
    own: the first turn sets the stop flag, so with any fuel of at least
    one turn the thread returns after one turn, with the trace of one turn,
    and leaves as many control loops as there were before the call. *)
Lemma start_runs_one_cycle :
  forall fuel timeToSleep g,
    stopServo (fst (servoCycle timeToSleep (start_startServo g))) = true
    /\ turningServoMotor (S fuel) timeToSleep (start_startServo g)
       = Done (mkGlobals true (stopButton g) false (mode g) (servoThreads g),
               snd (servoCycle timeToSleep g),
               1%nat)
    /\ (forall g' t n,
          turningServoMotor (S fuel) timeToSleep (start_startServo g)
          = Done (g', t, n) ->
          n = 1%nat /\ stopServo g' = true /\ (Idle g -> Idle g')).
Proof.
  intros fuel timeToSleep g.
  assert (E : turningServoMotor (S fuel) timeToSleep (start_startServo g)
              = Done (mkGlobals true (stopButton g) false (mode g)
                        (servoThreads g),
                      snd (servoCycle timeToSleep g),
                      1%nat)).
  { rewrite <- (app_nil_r (snd (servoCycle timeToSleep g))).
    unfold turningServoMotor. cbn [turningServoLoop].
    change (stopServo (start_startServo g)) with false. cbv iota.
    cbn [servoCycle].
    destruct fuel; reflexivity. }
  split; [ reflexivity | ].
  split; [ exact E | ].
  intros g' t n H. rewrite E in H. injection H as <- _ <-.
  split; [ reflexivity | ]. split; [ reflexivity | ].
  intros Hidle. exact Hidle.
Qed.

(** After a start the test of the control loop passes: a control loop that
    comes to its test then, the new one or one that was there, runs a
    turn. *)
Lemma turningServoLoop_after_start : forall fuel timeToSleep g,
  turningServoLoop (S fuel) timeToSleep (start_startServo g)
  = Done (fst (servoCycle timeToSleep (start_startServo g)),
          snd (servoCycle timeToSleep g), 1%nat).
Proof.
  intros fuel timeToSleep g.
  rewrite <- (app_nil_r (snd (servoCycle timeToSleep g))).
  cbn [turningServoLoop].
  change (stopServo (start_startServo g)) with false. cbv iota.
  cbn [servoCycle]. destruct fuel; reflexivity.
Qed.

(** C5, as the code has it. [start_startServo] has no test of the state
    of the actuator: in every state it clears the stop flag and creates one
    more control loop, and leaves the other variables; called while Idle it
    leaves one control loop, called while Running it leaves two or more;
    and a control loop that tests the stop flag after the call runs a turn,
    whatever the state was. *)
Theorem start_always_spawns :
  forall g,
    start_startServo g
    = mkGlobals false (stopButton g) (servoTurnedOn g) (mode g)
        (S (servoThreads g))
    /\ Running (start_startServo g)
    /\ (Idle g -> servoThreads (start_startServo g) = 1%nat)
    /\ (Running g -> (2 <= servoThreads (start_startServo g))%nat)
    /\ (forall fuel timeToSleep, exists g' t,
          turningServoLoop (S fuel) timeToSleep (start_startServo g)
          = Done (g', t, 1%nat))
    /\ inference_callback true g = start_startServo g
    /\ inference_callback false g = g.
Proof.
  intros g. unfold Idle, Running.
  split; [ reflexivity | ].
  split; [ simpl; lia | ].
  split; [ intros H; simpl; rewrite H; reflexivity | ].
  split; [ intros H; simpl; lia | ].
  split; [ | split; reflexivity ].
  intros fuel timeToSleep. eexists. eexists.
  apply turningServoLoop_after_start.
Qed.

(** C5, as it is worded, fails. A start while a control loop runs is not
    rejected: it creates a second control loop next to the first. And a
    start while the first control loop has ended its turn and not yet
    returned takes back the stop request, so that this loop runs a second
    turn. *)
Lemma start_while_running_not_rejected :
  Running (start_startServo initial)
  /\ start_startServo (start_startServo initial) <> start_startServo initial
  /\ servoThreads (start_startServo (start_startServo initial)) = 2%nat
  /\ Running (fst (servoCycle 0 (start_startServo initial)))
  /\ stopServo (fst (servoCycle 0 (start_startServo initial))) = true
  /\ stopServo (start_startServo
                  (fst (servoCycle 0 (start_startServo initial)))) = false.
Proof.
  split; [ unfold Running; simpl; lia | ].
  split; [ discriminate | ].
  split; [ reflexivity | ].
  split; [ unfold Running; simpl; lia | ].
  split; reflexivity.
Qed.

(** * Further properties of the code *)

(** ** Sleeping *)

Lemma to_int_small : forall n,
  -2147483648 <= n < 2147483648 -> to_int n = n.
Proof.
  intros n Hn. unfold to_int. rewrite Z.mod_small by lia. lia.
Qed.

(** X1. For every delay from 0 up to the last one whose seconds fit an
    [int], [sleepForMs] sleeps for the whole seconds of the delay and for
    its remaining milliseconds as nanoseconds: the two fields add up to
    the delay, and the nanoseconds are below one second. *)
Theorem sleepForMs_splits_delay :
  forall delayInMs,
    0 <= delayInMs < 2147483648000 ->
    sleepForMs delayInMs
    = [Nanosleep (delayInMs / 1000) (delayInMs mod 1000 * 1000000)]
    /\ delayInMs / 1000 * 1000000000 + delayInMs mod 1000 * 1000000
       = delayInMs * 1000000
    /\ 0 <= delayInMs mod 1000 * 1000000 < 1000000000.
Proof.
  intros ms Hms.
  pose proof (Z.mod_pos_bound ms 1000 ltac:(lia)) as Hmod.
  pose proof (Z.div_mod ms 1000 ltac:(lia)) as Hdm.
  assert (Hdiv : 0 <= ms / 1000 < 2147483648).
  { split; [ apply Z.div_pos; lia | apply Z.div_lt_upper_bound; lia ]. }
  split; [ | split; lia ].
  unfold sleepForMs. cbv zeta.
  change (1000 * 1000) with 1000000.
  rewrite Z.quot_div_nonneg by lia.
  rewrite Z.rem_mod_nonneg by lia.
  change 1000000000 with (1000 * 1000000).
  rewrite Z.div_mul_cancel_r by lia.
  rewrite Z.mul_mod_distr_r by lia.
  rewrite !to_int_small by lia.
  reflexivity.
Qed.

Lemma sleepForMs_splits_delay_witness :
  sleepForMs 5000 = [Nanosleep (5000 / 1000) (5000 mod 1000 * 1000000)]
  /\ 5000 / 1000 * 1000000000 + 5000 mod 1000 * 1000000 = 5000 * 1000000
  /\ 0 <= 5000 mod 1000 * 1000000 < 1000000000.
Proof.
  apply (sleepForMs_splits_delay 5000). lia.
Defined.

(** X2. For a negative delay [sleepForMs] asks for a time whose fields are
    both at most 0 and one of them negative; they still add up to the
    delay. *)
Theorem sleepForMs_negative_delay :
  forall delayInMs,
    -2147483648000 <= delayInMs < 0 ->
    exists seconds nanoseconds,
      sleepForMs delayInMs = [Nanosleep seconds nanoseconds]
      /\ seconds <= 0 /\ nanoseconds <= 0
      /\ (seconds < 0 \/ nanoseconds < 0)
      /\ seconds * 1000000000 + nanoseconds = delayInMs * 1000000.
Proof.
  intros ms Hms.
  set (m := - ms).
  assert (Hm : 0 < m <= 2147483648000) by (unfold m; lia).
  pose proof (Z.mod_pos_bound m 1000 ltac:(lia)) as Hmod.
  pose proof (Z.div_mod m 1000 ltac:(lia)) as Hdm.
  assert (Hdiv : 0 <= m / 1000 <= 2147483648).
  { split; [ apply Z.div_pos; lia | ].
    apply Z.div_le_upper_bound; lia. }
  exists (- (m / 1000)), (- (m mod 1000 * 1000000)).
  split; [ | lia ].
  unfold sleepForMs. cbv zeta.
  change (1000 * 1000) with 1000000.
  replace (ms * 1000000) with (- (m * 1000000)) by (unfold m; lia).
  rewrite Z.quot_opp_l, Z.rem_opp_l by lia.
  rewrite Z.quot_div_nonneg by lia.
  rewrite Z.rem_mod_nonneg by lia.
  change 1000000000 with (1000 * 1000000).
  rewrite Z.div_mul_cancel_r by lia.
  rewrite Z.mul_mod_distr_r by lia.
  rewrite !to_int_small by lia.
  reflexivity.
Qed.

Lemma sleepForMs_negative_delay_witness :
  exists seconds nanoseconds,
    sleepForMs (-1500) = [Nanosleep seconds nanoseconds]
    /\ seconds <= 0 /\ nanoseconds <= 0
    /\ (seconds < 0 \/ nanoseconds < 0)
    /\ seconds * 1000000000 + nanoseconds = -1500 * 1000000.
Proof.
  apply (sleepForMs_negative_delay (-1500)). lia.
Defined.

Lemma sleepForMs_seconds : forall t,
  -2147483 <= t <= 2147483 -> sleepForMs (t * 1000) = [Nanosleep t 0].
Proof.
  intros t Ht. unfold sleepForMs. cbv zeta.
  replace (t * 1000 * (1000 * 1000)) with (t * 1000000000) by lia.
  rewrite Z.quot_mul, Z.rem_mul by lia.
  rewrite !to_int_small by lia. reflexivity.
Qed.

(** X3. For a number of seconds whose product with 1000 fits an [int],
    the release of mode 1 sleeps that many seconds and runs the release of
    mode 0, and the turn of the control loop in mode 1 adds one more second
    before it clears the display. *)
Theorem userBasedRelease_waits_seconds :
  forall timeToSleep,
    -2147483 <= timeToSleep <= 2147483 ->
    userBasedRelease timeToSleep = Nanosleep timeToSleep 0 :: defaultRelease
    /\ (forall g, mode g = 1 ->
          snd (servoCycle timeToSleep g)
          = Nanosleep timeToSleep 0 :: defaultRelease
            ++ Nanosleep 1 0 :: clearDisplay ++ sleepForMs 100).
Proof.
  intros t Ht.
  assert (E : userBasedRelease t = Nanosleep t 0 :: defaultRelease).
  { unfold userBasedRelease. cbv zeta.
    rewrite to_int_small by lia.
    rewrite sleepForMs_seconds by exact Ht. reflexivity. }
  split; [ exact E | ].
  intros g Hm. unfold servoCycle. rewrite Hm.
  change (1 =? 0) with false. change (1 =? 1) with true. cbv iota. cbn [snd].
  rewrite E. rewrite <- app_assoc. reflexivity.
Qed.

Lemma userBasedRelease_waits_seconds_witness :
  userBasedRelease 30 = Nanosleep 30 0 :: defaultRelease
  /\ (forall g, mode g = 1 ->
        snd (servoCycle 30 g)
        = Nanosleep 30 0 :: defaultRelease
          ++ Nanosleep 1 0 :: clearDisplay ++ sleepForMs 100).
Proof.
  apply (userBasedRelease_waits_seconds 30). lia.
Defined.

(** ** The glyph lookup, for every symbol *)

(** The entries the scan passes do not carry the symbol. *)
Lemma scan_first : forall tbl i c j e,
  scanForHexData tbl i c = Found j e ->
  forall k e', (k < j - i)%nat -> nth_error tbl k = Some e' -> digit e' <> c.
Proof.
  induction tbl as [| e0 rest IH]; intros i c j e H k e' Hk Hn.
  - discriminate H.
  - simpl in H.
    destruct (Ascii.eqb (digit e0) EMPTY); [ discriminate H | ].
    destruct (Ascii.eqb (digit e0) c) eqn:Ec.
    + injection H as <- <-. lia.
    + destruct k as [| k].
      * simpl in Hn. injection Hn as <-. now apply Ascii.eqb_neq.
      * simpl in Hn. apply (IH _ _ _ _ H k e'); [ | exact Hn ].
        apply scan_Found in H. lia.
Qed.

(** X4. Whatever the symbol, the lookup does not return NULL: it returns
    an entry or leaves the table. An entry it returns is the entry of the
    table at the index it reports, the index is below 13, the entry carries
    the symbol looked for, and no entry before it does. *)
Theorem searchForHexData_sound :
  forall c,
    searchForHexData c <> Null
    /\ (forall j e, searchForHexData c = Found j e ->
          (j < 13)%nat /\ nth_error matrix j = Some e /\ digit e = c
          /\ forall k e', (k < j)%nat -> nth_error matrix k = Some e' ->
                          digit e' <> c).
Proof.
  intros c. split.
  - intros H. apply scan_Null in H. destruct H as (e & Hin & Hd).
    exact (matrix_no_EMPTY e Hin Hd).
  - intros j e H. unfold searchForHexData in H.
    destruct (scan_Found _ _ _ _ _ H) as (_ & Hnth & Hd).
    rewrite Nat.sub_0_r in Hnth.
    split; [ | split; [ exact Hnth | split; [ exact Hd | ] ] ].
    + assert (Hlt : (j < List.length matrix)%nat)
        by (apply nth_error_Some; congruence).
      rewrite matrix_length in Hlt. exact Hlt.
    + intros k e' Hk Hn.
      apply (scan_first _ _ _ _ _ H k e'); [ lia | exact Hn ].
Qed.

(** ** The frame, for every text *)

Lemma warpFrame_byte : forall b, byte (warpFrame b).
Proof.
  intros b. unfold byte, warpFrame, to_uchar. apply Z.mod_pos_bound. lia.
Qed.

(** The column loop keeps a frame of 8 bytes a frame of 8 bytes. *)
Lemma displayColumns_frame : forall cs fuel col display frame frame',
  List.length frame = 8%nat ->
  Forall byte frame ->
  displayColumns cs fuel col display frame = Done frame' ->
  List.length frame' = 8%nat /\ Forall byte frame'.
Proof.
  induction fuel as [| fuel IH]; intros col display frame frame' Hlen Hf H.
  - simpl in H. destruct (col <? numberOfMatrixCols); [ discriminate H | ].
    injection H as <-. split; assumption.
  - rewrite displayColumns_turn in H.
    destruct (col <? numberOfMatrixCols).
    + cbv zeta in H.
      destruct (searchForHexData _) as [j e | | j];
        cbn [callMatrixObject bind] in H; try discriminate H.
      apply IH in H; [ exact H | | ].
      * rewrite orRows_length. exact Hlen.
      * apply orRows_byte. exact Hf.
    + injection H as <-. split; assumption.
Qed.

Lemma renderFrame_frame : forall cs display frame,
  renderFrame cs display = Done frame ->
  List.length frame = 8%nat /\ Forall byte frame.
Proof.
  intros cs display frame H. unfold renderFrame in H.
  destruct (searchForHexData _) as [j e | | j];
    cbn [callMatrixObject bind] in H; try discriminate H.
  apply displayColumns_frame in H; [ exact H | reflexivity | ].
  repeat constructor; unfold byte; lia.
Qed.

(** X5. Whatever the text, also one that is too wide and makes the loop
    shift a glyph to the left, a frame the renderer builds has 8 rows of
    one byte each, and what [displayMatrix] then does on the bus is one
    opening of the device and 8 writes, of the warped rows 0 to 7 to the
    registers 0, 2, ..., 14 in this order. *)
Theorem displayMatrix_writes_eight_rows :
  forall char_is_signed display frame,
    renderFrame char_is_signed display = Done frame ->
    List.length frame = 8%nat
    /\ Forall byte frame
    /\ displayMatrix char_is_signed display
       = Done (I2cOpen I2CDRV_LINUX_BUS1 I2C_DEVICE_ADDRESS
               :: map (fun k => I2cWrite (2 * Z.of_nat k)
                                         (warpFrame (nth k frame 0)))
                      (seq 0 8))
    /\ Forall byte (map warpFrame frame).
Proof.
  intros cs display frame H.
  destruct (renderFrame_frame _ _ _ H) as (Hlen & Hf).
  split; [ exact Hlen | split; [ exact Hf | split ] ].
  - unfold displayMatrix. rewrite H. cbn [bind].
    do 9 (destruct frame as [| ? frame]; try discriminate Hlen).
    unfold writeMatrixByBytes, logicalFrame.
    cbn [map firstn writeRows writeI2cReg initI2cBus app seq nth].
    rewrite !(to_uchar_byte (warpFrame _)) by apply warpFrame_byte.
    reflexivity.
  - apply Forall_forall. intros b Hb. apply in_map_iff in Hb.
    destruct Hb as (x & <- & _). apply warpFrame_byte.
Qed.

Lemma displayMatrix_writes_eight_rows_witness :
  List.length [66; 99; 66; 66; 66; 66; 231; 8] = 8%nat
  /\ Forall byte [66; 99; 66; 66; 66; 66; 231; 8]
  /\ displayMatrix true "1.1.1"
     = Done (I2cOpen I2CDRV_LINUX_BUS1 I2C_DEVICE_ADDRESS
             :: map (fun k => I2cWrite (2 * Z.of_nat k)
                                (warpFrame
                                   (nth k [66; 99; 66; 66; 66; 66; 231; 8] 0)))
                    (seq 0 8))
  /\ Forall byte (map warpFrame [66; 99; 66; 66; 66; 66; 231; 8]).
Proof.
  apply (displayMatrix_writes_eight_rows true "1.1.1").
  reflexivity.
Defined.

(** *** Signed and unsigned [char] *)

Lemma to_schar_mod : forall n, to_schar n mod 256 = n mod 256.
Proof.
  intros n. unfold to_schar.
  rewrite Zminus_mod, Z.mod_mod by lia.
  rewrite <- Zminus_mod. f_equal. lia.
Qed.

Lemma lor_mod_256 : forall a b,
  Z.lor a b mod 256 = Z.lor (a mod 256) (b mod 256).
Proof.
  intros a b. change 256 with (2 ^ 8).
  rewrite <- !Z.land_ones by lia. apply Z.land_lor_distr_l.
Qed.

Lemma orRows_signedness : forall s frame rows,
  orRows true s frame rows = orRows false s frame rows.
Proof.
  induction frame as [| f frame IH]; intros rows; [ reflexivity | ].
  destruct rows as [| r rows]; [ reflexivity | ].
  cbn [orRows]. f_equal; [ | apply IH ].
  unfold to_uchar. rewrite (lor_mod_256 f), (lor_mod_256 f (_ false _ _)).
  f_equal. unfold shiftLeftOnMatrixBy, to_char.
  destruct (0 <=? s); rewrite to_schar_mod; unfold to_uchar;
    now rewrite Z.mod_mod by lia.
Qed.

Lemma displayColumns_signedness : forall fuel col display frame,
  displayColumns true fuel col display frame
  = displayColumns false fuel col display frame.
Proof.
  induction fuel as [| fuel IH]; intros col display frame; [ reflexivity | ].
  rewrite !displayColumns_turn.
  destruct (col <? numberOfMatrixCols); [ | reflexivity ].
  cbv zeta.
  destruct (searchForHexData _) as [j e | | j];
    cbn [callMatrixObject bind]; try reflexivity.
  rewrite orRows_signedness. apply IH.
Qed.

Lemma displayMode_signedness : forall c,
  displayMode true c = displayMode false c.
Proof.
  intros c. unfold displayMode, displayMatrix, renderFrame.
  destruct (searchForHexData _) as [j e | | j];
    cbn [callMatrixObject bind]; try reflexivity.
  rewrite displayColumns_signedness. reflexivity.
Qed.

(** X6. Whether plain [char] is signed or unsigned on the target makes no
    difference to the display: for every text the frame and the writes on
    the bus are the same, and so is every run of the display loop. *)
Theorem display_same_for_signed_and_unsigned_char :
  (forall display, renderFrame true display = renderFrame false display)
  /\ (forall display, displayMatrix true display = displayMatrix false display)
  /\ (forall turns button g,
        displayButton true turns button g = displayButton false turns button g).
Proof.
  assert (Hr : forall display, renderFrame true display = renderFrame false display).
  { intros display. unfold renderFrame.
    destruct (searchForHexData _) as [j e | | j];
      cbn [callMatrixObject bind]; try reflexivity.
    apply displayColumns_signedness. }
  split; [ exact Hr | ].
  split; [ intros display; unfold displayMatrix; rewrite Hr; reflexivity | ].
  induction turns as [| turns IH]; intros button g; [ reflexivity | ].
  cbn [displayButton]. destruct (stopButton g); [ reflexivity | ].
  assert (Ht : displayTurn true button g = displayTurn false button g).
  { unfold displayTurn. rewrite !displayMode_signedness. reflexivity. }
  rewrite Ht.
  destruct (displayTurn false button g) as [[[[g1 b1] t1] n1] | | |];
    cbn [bind]; [ rewrite IH | | | ]; reflexivity.
Qed.

(** *** Texts that are too long *)

Lemma totalWidth_nonneg : forall text, 0 <= totalWidth text.
Proof.
  induction text as [| a r IH]; simpl; [ lia | ].
  destruct (glyphOf a) as [e |] eqn:G; [ | lia ].
  assert (In e matrix) by (unfold glyphOf in G; apply find_some in G; tauto).
  pose proof (matrix_cols e H). lia.
Qed.

(** The lookup of a symbol of the table, in the words of the loop. *)
Lemma lookup_InTable : forall c,
  InTable c ->
  Ascii.eqb c EMPTY = false
  /\ exists e, glyphOf c = Some e
               /\ callMatrixObject (searchForHexData c) = Done e
               /\ 1 <= cols e <= 4.
Proof.
  intros c Hc. split.
  - apply Ascii.eqb_neq. apply InTable_not_EMPTY. exact Hc.
  - destruct (glyphOf_present c Hc) as (e & Hg & He & _).
    destruct (searchForHexData_glyphOf c e Hg) as (j & Hs).
    exists e. rewrite Hs. split; [ exact Hg | split; [ reflexivity | ] ].
    apply matrix_cols. exact He.
Qed.

Lemma displayColumns_prefix : forall cs prefix rest fuel col frame,
  (forall c, In c (list_ascii_of_string prefix) -> InTable c) ->
  8 <= col + totalWidth prefix ->
  displayColumns cs fuel col (prefix ++ rest)%string frame
  = displayColumns cs fuel col prefix frame.
Proof.
  induction prefix as [| c p IH]; intros rest fuel col frame Hin Hw.
  - simpl in Hw. rewrite !displayColumns_end by (unfold numberOfMatrixCols; lia).
    reflexivity.
  - destruct fuel as [| fuel]; [ reflexivity | ].
    rewrite !displayColumns_turn.
    destruct (col <? numberOfMatrixCols); [ | reflexivity ].
    cbn [String.append deref advance].
    destruct (lookup_InTable c) as (E0 & e & Hg & Hs & Hcols).
    { apply Hin. left. reflexivity. }
    rewrite E0. cbv zeta. rewrite Hs. cbn [bind].
    apply IH.
    + intros c' Hc'. apply Hin. right. exact Hc'.
    + cbn [totalWidth] in Hw. rewrite Hg in Hw. lia.
Qed.

(** X7. Symbols after the first 8 columns are dropped without being looked
    up: when the glyphs of the front of a text, all of the table, fill 8
    columns or more, the frame does not depend on what follows, be it
    symbols that are not in the table. *)
Theorem render_drops_symbols_past_column_8 :
  forall char_is_signed prefix rest,
    (forall c, In c (list_ascii_of_string prefix) -> InTable c) ->
    8 <= totalWidth prefix ->
    renderFrame char_is_signed (prefix ++ rest)%string
    = renderFrame char_is_signed prefix
    /\ displayMatrix char_is_signed (prefix ++ rest)%string
       = displayMatrix char_is_signed prefix.
Proof.
  intros cs prefix rest Hin Hw.
  assert (E : renderFrame cs (prefix ++ rest)%string = renderFrame cs prefix).
  { unfold renderFrame.
    destruct prefix as [| c p]; [ simpl in Hw; lia | ].
    rewrite displayColumns_prefix with (prefix := String c p)
      by (assumption || lia).
    reflexivity. }
  split; [ exact E | ]. unfold displayMatrix. rewrite E. reflexivity.
Qed.

Lemma render_drops_symbols_past_column_8_witness :
  renderFrame false ("12" ++ "AB")%string = renderFrame false "12"
  /\ displayMatrix false ("12" ++ "AB")%string = displayMatrix false "12".
Proof.
  apply (render_drops_symbols_past_column_8 false "12" "AB").
  - intros c Hc. simpl in Hc.
    destruct Hc as [<- | [<- | []]].
    + exists (mkMatrixData "1" [0x20; 0x30; 0x20; 0x20; 0x20; 0x20; 0x70; 0x00] 4).
      split; [ unfold matrix; simpl; tauto | reflexivity ].
    + exists (mkMatrixData "2" [0x20; 0x50; 0x40; 0x20; 0x20; 0x10; 0x70; 0x00] 4).
      split; [ unfold matrix; simpl; tauto | reflexivity ].
  - vm_compute. discriminate.
Defined.

Lemma displayColumns_snprintf : forall cs fuel col n display frame,
  (Z.to_nat (8 - col) <= n)%nat ->
  displayColumns cs fuel col (snprintf n display) frame
  = displayColumns cs fuel col display frame.
Proof.
  induction fuel as [| fuel IH]; intros col n display frame Hn;
    [ reflexivity | ].
  rewrite !displayColumns_turn.
  destruct (col <? numberOfMatrixCols) eqn:E; [ | reflexivity ].
  apply Z.ltb_lt in E. unfold numberOfMatrixCols in E.
  destruct n as [| n]; [ lia | ].
  destruct display as [| a rest]; [ reflexivity | ].
  cbn [snprintf]. destruct (Ascii.eqb a EMPTY) eqn:Ea.
  - cbn [deref]. rewrite Ea. change (Ascii.eqb EMPTY EMPTY) with true.
    cbv iota zeta.
    destruct (searchForHexData " ") as [j e | | j] eqn:Hs;
      cbn [callMatrixObject bind]; try reflexivity.
    assert (Hin : In e matrix).
    { apply scan_Found in Hs. destruct Hs as (_ & Hnth & _).
      eapply nth_error_In. exact Hnth. }
    pose proof (matrix_cols e Hin) as Hcols.
    rewrite <- (IH (col + cols e) (S n) (String a rest)) by lia.
    cbn [snprintf]. rewrite Ea. reflexivity.
  - cbn [deref advance]. rewrite Ea. cbv iota zeta.
    destruct (searchForHexData a) as [j e | | j] eqn:Hs;
      cbn [callMatrixObject bind]; try reflexivity.
    assert (Hin : In e matrix).
    { apply scan_Found in Hs. destruct Hs as (_ & Hnth & _).
      eapply nth_error_In. exact Hnth. }
    pose proof (matrix_cols e Hin) as Hcols.
    apply IH. lia.
Qed.

Lemma displayMode_displayMatrix : forall cs c,
  displayMode cs c = displayMatrix cs c.
Proof.
  intros cs c. unfold displayMode, displayMatrix. f_equal.
  unfold renderFrame.
  assert (Hd : deref (snprintf 9 c) = deref c
               \/ (deref (snprintf 9 c) = EMPTY /\ deref c = EMPTY)).
  { destruct c as [| a rest]; [ left; reflexivity | ].
    cbn [snprintf]. destruct (Ascii.eqb a EMPTY) eqn:Ea.
    - right. apply Ascii.eqb_eq in Ea. subst a. split; reflexivity.
    - left. reflexivity. }
  assert (Hfirst :
            (if Ascii.eqb (deref (snprintf 9 c)) EMPTY then " "%char
             else deref (snprintf 9 c))
            = (if Ascii.eqb (deref c) EMPTY then " "%char else deref c)).
  { destruct Hd as [-> | [-> ->]]; reflexivity. }
  rewrite Hfirst.
  destruct (searchForHexData _) as [j e | | j];
    cbn [callMatrixObject bind]; try reflexivity.
  apply displayColumns_snprintf. simpl. lia.
Qed.

(** X8. The buffer of 10 bytes that [displayMode] copies its text to never
    changes what is shown: the renderer reads at most 8 symbols, so for
    every text [displayMode] does what [displayMatrix] does on the text
    itself. *)
Theorem displayMode_buffer_is_long_enough :
  forall char_is_signed c,
    displayMode char_is_signed c = displayMatrix char_is_signed c
    /\ (forall n, (9 <= n)%nat ->
          displayMatrix char_is_signed (snprintf n c)
          = displayMatrix char_is_signed c).
Proof.
  intros cs c. split; [ apply displayMode_displayMatrix | ].
  intros n Hn. destruct n as [| n]; [ lia | ].
  pose proof (displayMode_displayMatrix cs c) as H9.
  unfold displayMode in H9.
  pose proof (displayMode_displayMatrix cs (snprintf (S n) c)) as Hn9.
  unfold displayMode in Hn9. rewrite <- Hn9, <- H9. f_equal.
  clear - Hn. revert n Hn.
  assert (G : forall k m s, (k <= m)%nat ->
              snprintf k (snprintf m s) = snprintf k s).
  { induction k as [| k IH]; intros m s Hkm; [ reflexivity | ].
    destruct m as [| m]; [ lia | ].
    destruct s as [| a rest]; [ reflexivity | ].
    cbn [snprintf]. destruct (Ascii.eqb a EMPTY) eqn:Ea; [ reflexivity | ].
    cbn [snprintf]. rewrite Ea. f_equal. apply IH. lia. }
  intros n Hn. apply G. lia.
Qed.

(** *** Faults *)

Lemma InTable_glyphOf : forall c e, glyphOf c = Some e -> InTable c.
Proof.
  intros c e G. unfold glyphOf in G. apply find_some in G.
  destruct G as [Hin Heq]. exists e.
  split; [ exact Hin | now apply Ascii.eqb_eq ].
Qed.

(** A symbol of a text that is written out is in the table. *)
Ltac table_symbol H :=
  simpl in H;
  repeat (destruct H as [<- | H]; [ eapply InTable_glyphOf; reflexivity | ]);
  contradiction.

Lemma displayColumns_valid : forall cs fuel text col frame,
  (forall c, In c (list_ascii_of_string text) -> InTable c) ->
  (Z.to_nat (8 - col) <= fuel)%nat ->
  exists frame', displayColumns cs fuel col text frame = Done frame'.
Proof.
  induction fuel as [| fuel IH]; intros text col frame Hin Hfuel.
  - exists frame. apply displayColumns_end. unfold numberOfMatrixCols. lia.
  - rewrite displayColumns_turn.
    destruct (col <? numberOfMatrixCols) eqn:E; [ | exists frame; reflexivity ].
    apply Z.ltb_lt in E. unfold numberOfMatrixCols in E.
    destruct text as [| c rest].
    + cbn [deref]. change (Ascii.eqb EMPTY EMPTY) with true. cbv iota zeta.
      change (callMatrixObject (searchForHexData " "))
        with (Done (mkMatrixData " " (repeat 0 8) 4)).
      cbn [bind cols]. apply IH; [ exact Hin | lia ].
    + cbn [deref advance].
      destruct (lookup_InTable c) as (E0 & e & Hg & Hs & Hcols).
      { apply Hin. left. reflexivity. }
      rewrite E0. cbv zeta. rewrite Hs. cbn [bind].
      apply IH; [ | lia ].
      intros c' Hc'. apply Hin. right. exact Hc'.
Qed.

(** X9. A text of symbols of the table is rendered without a fault,
    however long it is: the renderer returns a frame. *)
Theorem render_table_text_never_faults :
  forall char_is_signed text,
    (forall c, In c (list_ascii_of_string text) -> InTable c) ->
    exists frame,
      renderFrame char_is_signed text = Done frame
      /\ displayMatrix char_is_signed text
         = Done (writeMatrixByBytes (logicalFrame frame)).
Proof.
  intros cs text Hin.
  assert (H : exists frame, renderFrame cs text = Done frame).
  { unfold renderFrame.
    assert (Hfirst : exists e,
               callMatrixObject
                 (searchForHexData
                    (if Ascii.eqb (deref text) EMPTY then " "%char
                     else deref text)) = Done e).
    { destruct text as [| c rest]; cbn [deref].
      - eexists. reflexivity.
      - destruct (lookup_InTable c) as (E0 & e & _ & Hs & _).
        { apply Hin. left. reflexivity. }
        rewrite E0. exists e. exact Hs. }
    destruct Hfirst as (e & ->). cbn [bind].
    apply displayColumns_valid; [ exact Hin | simpl; lia ]. }
  destruct H as (frame & H). exists frame.
  split; [ exact H | ]. unfold displayMatrix. rewrite H. reflexivity.
Qed.

Lemma render_table_text_never_faults_witness :
  exists frame,
    renderFrame true "3.14159" = Done frame
    /\ displayMatrix true "3.14159"
       = Done (writeMatrixByBytes (logicalFrame frame)).
Proof.
  apply (render_table_text_never_faults true "3.14159").
  intros c Hc. table_symbol Hc.
Defined.

Lemma displayColumns_absent : forall cs prefix c rest fuel col frame,
  (forall a, In a (list_ascii_of_string prefix) -> InTable a) ->
  0 <= col ->
  col + totalWidth prefix < 8 ->
  (Z.to_nat (8 - col) <= fuel)%nat ->
  c <> EMPTY ->
  ~ InTable c ->
  displayColumns cs fuel col (prefix ++ String c rest)%string frame = Fault.
Proof.
  induction prefix as [| a p IH];
    intros c rest fuel col frame Hin Hcol Hw Hfuel Hc Habs.
  - simpl in Hw. destruct fuel as [| fuel]; [ lia | ].
    rewrite displayColumns_turn.
    destruct (col <? numberOfMatrixCols) eqn:E;
      [ | apply Z.ltb_ge in E; unfold numberOfMatrixCols in E; lia ].
    cbn [String.append deref advance].
    apply Ascii.eqb_neq in Hc. rewrite Hc. cbv zeta.
    rewrite (searchForHexData_absent c Habs). reflexivity.
  - pose proof (totalWidth_nonneg p) as Hp.
    destruct (lookup_InTable a) as (E0 & e & Hg & Hs & Hcols).
    { apply Hin. left. reflexivity. }
    cbn [totalWidth] in Hw. rewrite Hg in Hw.
    destruct fuel as [| fuel]; [ lia | ].
    rewrite displayColumns_turn.
    destruct (col <? numberOfMatrixCols) eqn:E;
      [ | apply Z.ltb_ge in E; unfold numberOfMatrixCols in E; lia ].
    cbn [String.append deref advance].
    rewrite E0. cbv zeta. rewrite Hs. cbn [bind].
    apply IH; try assumption; try lia.
    intros a' Ha'. apply Hin. right. exact Ha'.
Qed.

(** X10. A symbol that is not in the table and comes before 8 columns are
    filled makes the renderer fault, whatever follows it: there is no
    frame and nothing is written to the display. *)
Theorem render_faults_on_absent_symbol :
  forall char_is_signed prefix c rest,
    (forall a, In a (list_ascii_of_string prefix) -> InTable a) ->
    totalWidth prefix < 8 ->
    c <> EMPTY ->
    ~ InTable c ->
    renderFrame char_is_signed (prefix ++ String c rest)%string = Fault
    /\ displayMatrix char_is_signed (prefix ++ String c rest)%string = Fault
    /\ displayMode char_is_signed (prefix ++ String c rest)%string = Fault.
Proof.
  intros cs prefix c rest Hin Hw Hc Habs.
  assert (E : renderFrame cs (prefix ++ String c rest)%string = Fault).
  { unfold renderFrame.
    destruct prefix as [| a p].
    - cbn [String.append deref].
      pose proof Hc as Hc'. apply Ascii.eqb_neq in Hc'. rewrite Hc'.
      rewrite (searchForHexData_absent c Habs). reflexivity.
    - destruct (lookup_InTable a) as (E0 & e & Hg & Hs & Hcols).
      { apply Hin. left. reflexivity. }
      change (deref (String a p ++ String c rest)%string) with a.
      rewrite E0, Hs. cbn [bind].
      apply displayColumns_absent; try assumption; try (simpl; lia). }
  assert (E' : displayMatrix cs (prefix ++ String c rest)%string = Fault).
  { unfold displayMatrix. rewrite E. reflexivity. }
  split; [ exact E | split; [ exact E' | ] ].
  rewrite displayMode_displayMatrix. exact E'.
Qed.

Lemma not_InTable_glyphOf : forall c, glyphOf c = None -> ~ InTable c.
Proof.
  intros c G Hc. destruct (glyphOf_present c Hc) as (e & G' & _).
  congruence.
Qed.

Lemma render_faults_on_absent_symbol_witness :
  renderFrame false ("1" ++ String "A" "2")%string = Fault
  /\ displayMatrix false ("1" ++ String "A" "2")%string = Fault
  /\ displayMode false ("1" ++ String "A" "2")%string = Fault.
Proof.
  apply (render_faults_on_absent_symbol false "1" "A" "2").
  - intros a Ha. table_symbol Ha.
  - vm_compute. reflexivity.
  - discriminate.
  - apply not_InTable_glyphOf. reflexivity.
Defined.

(** *** Blanks *)

Lemma displayColumns_spaces : forall cs fuel text col frame,
  (forall c, In c (list_ascii_of_string text) -> c = " "%char) ->
  (Z.to_nat (8 - col) <= fuel)%nat ->
  Forall byte frame ->
  displayColumns cs fuel col text frame = Done frame.
Proof.
  induction fuel as [| fuel IH]; intros text col frame Hin Hfuel Hf.
  - apply displayColumns_end. unfold numberOfMatrixCols. lia.
  - rewrite displayColumns_turn.
    destruct (col <? numberOfMatrixCols) eqn:E; [ | reflexivity ].
    apply Z.ltb_lt in E. unfold numberOfMatrixCols in E.
    assert (Hturn : forall display',
               (forall c, In c (list_ascii_of_string display') -> c = " "%char) ->
               displayColumns cs fuel (col + 4) display'
                 (orRows cs (numberOfMatrixCols - 4 - col) frame (repeat 0 8))
               = Done frame).
    { intros display' Hin'. rewrite orRows_blank by exact Hf.
      apply IH; [ exact Hin' | lia | exact Hf ]. }
    destruct text as [| c rest].
    + exact (Hturn EmptyString Hin).
    + assert (Hc : c = " "%char) by (apply Hin; left; reflexivity).
      subst c. apply (Hturn rest).
      intros c' Hc'. apply Hin. right. exact Hc'.
Qed.

(** X11. A text of spaces only, of any length, the empty text among them,
    is drawn as the cleared display: [displayMatrix] writes what
    [clearDisplay] writes. *)
Theorem blank_text_clears_display :
  forall char_is_signed text,
    (forall c, In c (list_ascii_of_string text) -> c = " "%char) ->
    renderFrame char_is_signed text = Done (repeat 0 8)
    /\ displayMatrix char_is_signed text = Done clearDisplay.
Proof.
  intros cs text Hin.
  assert (E : renderFrame cs text = Done (repeat 0 8)).
  { unfold renderFrame.
    assert (Hfirst : (if Ascii.eqb (deref text) EMPTY then " "%char
                      else deref text) = " "%char).
    { destruct text as [| c rest]; [ reflexivity | ].
      rewrite (Hin c) by (left; reflexivity). reflexivity. }
    rewrite Hfirst.
    change (callMatrixObject (searchForHexData " "))
      with (Done (mkMatrixData " " (repeat 0 8) 4)).
    cbn [bind]. apply displayColumns_spaces; [ exact Hin | simpl; lia | ].
    repeat constructor; unfold byte; lia. }
  split; [ exact E | ]. unfold displayMatrix. rewrite E. reflexivity.
Qed.

Lemma blank_text_clears_display_witness :
  renderFrame false "   " = Done (repeat 0 8)
  /\ displayMatrix false "   " = Done clearDisplay.
Proof.
  apply (blank_text_clears_display false "   ").
  intros c Hc. simpl in Hc.
  repeat (destruct Hc as [<- | Hc]; [ reflexivity | ]). contradiction.
Defined.

(** The frame of a text that fits, started from the empty frame. *)
Lemma renderFrame_fits : forall cs text,
  (forall c, In c (list_ascii_of_string text) -> InTable c) ->
  totalWidth text <= 8 ->
  renderFrame cs text = Done (specFrame text).
Proof.
  intros cs text Hin Hw. unfold renderFrame.
  assert (Hfirst : exists e,
             callMatrixObject
               (searchForHexData
                  (if Ascii.eqb (deref text) EMPTY then " "%char
                   else deref text)) = Done e).
  { destruct text as [| c rest]; cbn [deref].
    - eexists. reflexivity.
    - destruct (lookup_InTable c) as (E0 & e & _ & Hs & _).
      { apply Hin. left. reflexivity. }
      rewrite E0. exists e. exact Hs. }
  destruct Hfirst as (e & ->). cbn [bind].
  rewrite displayColumns_spec; try assumption; try lia.
  - reflexivity.
  - reflexivity.
  - repeat constructor; unfold byte; lia.
Qed.

(** X12. A point at the left edge is not to be seen: its one lit bit is
    shifted out of the row, and the frame of a text that starts with a
    point is the frame of the rest of the text drawn from column 1 on. *)
Theorem leading_point_is_blank :
  forall char_is_signed rest,
    (forall c, In c (list_ascii_of_string rest) -> InTable c) ->
    1 + totalWidth rest <= 8 ->
    renderFrame char_is_signed (String "." rest)
    = Done (map (fun i => specRow i 1 rest) (seq 0 8))
    /\ renderFrame char_is_signed "." = Done (repeat 0 8).
Proof.
  intros cs rest Hin Hw. split.
  - rewrite renderFrame_fits.
    + reflexivity.
    + intros c Hc. simpl in Hc. destruct Hc as [<- | Hc].
      * eapply InTable_glyphOf. reflexivity.
      * apply Hin. exact Hc.
    + cbn [totalWidth].
      change (glyphOf ".") with
        (Some (mkMatrixData "." [0; 0; 0; 0; 0; 0; 0; 0x40] 1)).
      cbn [cols]. lia.
  - destruct cs; reflexivity.
Qed.

Lemma leading_point_is_blank_witness :
  renderFrame false (String "." "5")
  = Done (map (fun i => specRow i 1 "5") (seq 0 8))
  /\ renderFrame false "." = Done (repeat 0 8).
Proof.
  apply (leading_point_is_blank false "5").
  - intros c Hc. table_symbol Hc.
  - vm_compute. discriminate.
Defined.

(** ** The display loop over several presses *)

Lemma switchMode_successor : forall g,
  validMode (mode g) -> mode (switchMode g) = (mode g + 1) mod 3.
Proof.
  intros g H. rewrite switchMode_mode. unfold validMode in H.
  destruct H as [-> | [-> | ->]]; reflexivity.
Qed.

Lemma iter_switchMode_mode : forall k g,
  validMode (mode g) ->
  mode (Nat.iter k switchMode g) = (mode g + Z.of_nat k) mod 3.
Proof.
  induction k as [| k IH]; intros g H.
  - simpl. rewrite Z.add_0_r. unfold validMode in H.
    destruct H as [-> | [-> | ->]]; reflexivity.
  - change (Nat.iter (S k) switchMode g)
      with (switchMode (Nat.iter k switchMode g)).
    rewrite switchMode_successor
      by (apply iter_switchMode_validMode; exact H).
    rewrite IH by exact H. rewrite Z.add_mod_idemp_l by lia.
    f_equal. lia.
Qed.

Lemma iter_switchMode_stopButton : forall k g,
  stopButton (Nat.iter k switchMode g) = stopButton g.
Proof.
  induction k as [| k IH]; intros g; [ reflexivity | ].
  change (Nat.iter (S k) switchMode g)
    with (switchMode (Nat.iter k switchMode g)).
  rewrite switchMode_stopButton. apply IH.
Qed.

(** X13. Over a row of presses, each held for any number of reads and then
    released for one read, the display loop takes one turn for each press
    and calls [switchMode] once in each: after as many turns as there are
    presses it has read the whole row, and from a mode of 0, 1 or 2 the
    mode has moved on by the number of presses, modulo 3. *)
Theorem presses_advance_mode_by_their_number :
  forall char_is_signed presses g,
    stopButton g = false ->
    (exists t,
       displayButton char_is_signed (List.length presses)
         (buttonOfPresses presses) g
       = Done (Nat.iter (List.length presses) switchMode g, [], t,
               List.length presses))
    /\ (validMode (mode g) ->
        mode (Nat.iter (List.length presses) switchMode g)
        = (mode g + Z.of_nat (List.length presses)) mod 3).
Proof.
  intros cs presses g Hstop.
  split; [ | apply iter_switchMode_mode ].
  revert g Hstop. induction presses as [| n presses IH]; intros g Hstop.
  - exists []. reflexivity.
  - cbn [List.length buttonOfPresses flat_map displayButton].
    rewrite Hstop.
    replace ((repeat 1 (S n) ++ [0]) ++ flat_map
               (fun n0 => repeat 1 (S n0) ++ [0]) presses)
      with (1 :: repeat 1 n ++ 0 :: buttonOfPresses presses)
      by (cbn [repeat app]; rewrite <- app_assoc; reflexivity).
    destruct (displayTurn_pressed cs n 0 (buttonOfPresses presses) g)
      as (t1 & ->); [ lia | ].
    cbn [bind].
    destruct (IH (switchMode g)) as (t2 & ->).
    { rewrite switchMode_stopButton. exact Hstop. }
    cbn [bind]. exists (t1 ++ t2).
    rewrite iter_switchMode_S. reflexivity.
Qed.

Lemma presses_advance_mode_by_their_number_witness :
  (exists t,
     displayButton false (List.length [0; 3; 1; 0]%nat)
       (buttonOfPresses [0; 3; 1; 0]%nat) initial
     = Done (Nat.iter (List.length [0; 3; 1; 0]%nat) switchMode initial, [], t,
             List.length [0; 3; 1; 0]%nat))
  /\ (validMode (mode initial) ->
      mode (Nat.iter (List.length [0; 3; 1; 0]%nat) switchMode initial)
      = (mode initial + Z.of_nat (List.length [0; 3; 1; 0]%nat)) mod 3).
Proof.
  apply (presses_advance_mode_by_their_number false [0; 3; 1; 0]%nat initial).
  reflexivity.
Defined.

(** The label of a mode is drawn as the specification draws it. *)
Lemma displayMode_modeLabel : forall cs m,
  validMode m ->
  (if m =? 0 then displayMode cs "M0"
   else if m =? 1 then displayMode cs "M1"
   else if m =? 2 then displayMode cs "M2"
   else Done [])
  = Done (writeMatrixByBytes (logicalFrame (specFrame (modeLabel m)))).
Proof.
  intros cs m H. unfold validMode in H.
  destruct H as [-> | [-> | ->]]; destruct cs; reflexivity.
Qed.

(** The variables and the trace of a turn, out of the equation of its
    result. *)
Ltac turn_parts H g :=
  let Hg := fresh "Hg" in
  let Ht := fresh "Ht" in
  pose proof (f_equal (fun r : result turn =>
                         match r with
                         | Done (g0, _, _, _) => g0
                         | _ => g
                         end) H) as Hg;
  pose proof (f_equal (fun r : result turn =>
                         match r with
                         | Done (_, _, t0, _) => t0
                         | _ => []
                         end) H) as Ht;
  cbv beta iota in Hg, Ht; clear H; symmetry in Hg, Ht.

(** X14. With a mode of 0, 1 or 2, every turn of the display loop that
    comes to its end starts by clearing the display and ends by drawing the
    label of the mode the turn leaves, the letter M and the digit of the
    mode, and sleeping 100 ms; the mode it leaves is again 0, 1 or 2. *)
Theorem display_turn_ends_on_mode_label :
  forall char_is_signed button g g' button' t n,
    validMode (mode g) ->
    displayTurn char_is_signed button g = Done (g', button', t, n) ->
    validMode (mode g')
    /\ exists t1,
         t = clearDisplay ++ t1
               ++ writeMatrixByBytes
                    (logicalFrame (specFrame (modeLabel (mode g'))))
               ++ sleepForMs 100.
Proof.
  intros cs button g g' button' t n Hm H.
  unfold displayTurn in H.
  destruct button as [| v button]; [ discriminate H | ].
  cbn [yellowButtonPressed bind] in H.
  destruct (v =? 1).
  - destruct (debounce button) as [button2 | | |]; try discriminate H.
    cbn [bind] in H.
    pose proof (switchMode_validMode g Hm) as Hm'.
    rewrite (displayMode_modeLabel cs _ Hm') in H. cbn [bind] in H.
    turn_parts H g. subst g' t.
    split; [ exact Hm' | ].
    match goal with
    | |- exists t1, clearDisplay ++ ?a ++ ?b ++ _ = _ => exists (a ++ b)
    end.
    rewrite <- app_assoc. reflexivity.
  - cbn [bind] in H.
    rewrite (displayMode_modeLabel cs _ Hm) in H. cbn [bind] in H.
    turn_parts H g. subst g' t.
    split; [ exact Hm | ].
    match goal with
    | |- exists t1, clearDisplay ++ ?a ++ ?b ++ _ = _ => exists (a ++ b)
    end.
    rewrite <- app_assoc. reflexivity.
Qed.

Lemma display_turn_ends_on_mode_label_witness :
  exists t,
    displayTurn false [1; 0] initial = Done (switchMode initial, [], t, 1%nat)
    /\ validMode (mode (switchMode initial))
    /\ exists t1,
         t = clearDisplay ++ t1
               ++ writeMatrixByBytes
                    (logicalFrame
                       (specFrame (modeLabel (mode (switchMode initial)))))
               ++ sleepForMs 100.
Proof.
  eexists. split; [ reflexivity | ].
  apply (display_turn_ends_on_mode_label false [1; 0] initial
           (switchMode initial) [] _ 1%nat).
  - left. reflexivity.
  - reflexivity.
Defined.

(** ** What the operations leave of the flags *)

Lemma iter_switchMode_fields : forall k g,
  stopServo (Nat.iter k switchMode g) = stopServo g
  /\ servoTurnedOn (Nat.iter k switchMode g) = servoTurnedOn g
  /\ servoThreads (Nat.iter k switchMode g) = servoThreads g.
Proof.
  assert (H1 : forall g, stopServo (switchMode g) = stopServo g
                         /\ servoTurnedOn (switchMode g) = servoTurnedOn g
                         /\ servoThreads (switchMode g) = servoThreads g).
  { intros g. unfold switchMode.
    destruct (mode g =? 0); [ repeat split | ].
    destruct (mode g =? 1); [ repeat split | ].
    destruct (mode g =? 2); repeat split. }
  induction k as [| k IH]; intros g; [ repeat split | ].
  change (Nat.iter (S k) switchMode g)
    with (switchMode (Nat.iter k switchMode g)).
  destruct (H1 (Nat.iter k switchMode g)) as (-> & -> & ->). apply IH.
Qed.

(** The servo loop, whatever its fuel: it has made no turn and changed
    nothing, or it has made a turn and left the flags of one turn. *)
Lemma turningServoLoop_flags : forall fuel timeToSleep g g' t n,
  turningServoLoop fuel timeToSleep g = Done (g', t, n) ->
  (g' = g /\ n = O /\ stopServo g = true)
  \/ (g' = mkGlobals true (stopButton g) false (mode g) (servoThreads g)
      /\ n = 1%nat /\ stopServo g = false).
Proof.
  intros fuel timeToSleep g g' t n H.
  destruct fuel as [| fuel]; cbn [turningServoLoop] in H;
    destruct (stopServo g) eqn:Es; try discriminate H.
  - injection H as <- _ <-. left. repeat split.
  - injection H as <- _ <-. left. repeat split.
  - cbn [servoCycle] in H.
    assert (E : forall f g0, stopServo g0 = true ->
                turningServoLoop f timeToSleep g0 = Done (g0, [], O)).
    { intros f g0 E0. destruct f; cbn [turningServoLoop]; rewrite E0;
        reflexivity. }
    rewrite E in H by reflexivity. cbn [bind] in H.
    injection H as <- _ <-. right. repeat split.
Qed.

Lemma perform_stopButton : forall cs op g,
  stopButton g = true -> stopButton (perform cs op g) = true.
Proof.
  intros cs op g H. destruct op; cbn [perform].
  - rewrite switchMode_stopButton. exact H.
  - exact H.
  - exact H.
  - destruct is_understood; exact H.
  - exact H.
  - unfold turningServoMotor.
    destruct (turningServoLoop fuel timeToSleep g)
      as [[[g1 t1] n1] | | |] eqn:E; cbn [bind]; try exact H.
    apply turningServoLoop_flags in E.
    destruct E as [(-> & _) | (-> & _)]; exact H.
  - destruct (displayTurn cs button g) as [[[[g1 b1] t1] n1] | | |] eqn:E;
      try exact H.
    destruct (displayTurn_globals _ _ _ _ _ _ _ E) as [[-> _] | [-> _]];
      [ exact H | rewrite switchMode_stopButton; exact H ].
  - destruct (displayButton cs turns button g)
      as [[[[g1 b1] t1] n1] | | |] eqn:E; try exact H.
    apply displayButton_globals in E. subst g1.
    rewrite iter_switchMode_stopButton. exact H.
  - reflexivity.
  - exact H.
  - exact H.
  - exact H.
  - exact H.
Qed.

Lemma performAll_stopButton : forall cs ops g,
  stopButton g = true -> stopButton (performAll cs ops g) = true.
Proof.
  intros cs ops. unfold performAll.
  induction ops as [| op ops IH]; intros g H; [ exact H | ].
  cbn [fold_left]. apply IH. apply perform_stopButton. exact H.
Qed.

(** X15. No operation of the program takes back the stop of the display
    loop: once [display_stopButton] has set the flag it stays set after
    any row of operations, and every later run of the display loop takes no
    turn, reads no button value and writes nothing. *)
Theorem display_loop_stays_stopped :
  forall char_is_signed ops g turns button,
    stopButton (performAll char_is_signed ops (display_stopButton g)) = true
    /\ displayButton char_is_signed turns button
         (performAll char_is_signed ops (display_stopButton g))
       = Done (performAll char_is_signed ops (display_stopButton g),
               button, [], O).
Proof.
  intros cs ops g turns button.
  assert (H : stopButton (performAll cs ops (display_stopButton g)) = true)
    by (apply performAll_stopButton; reflexivity).
  split; [ exact H | ].
  destruct turns as [| turns]; [ reflexivity | ].
  cbn [displayButton]. rewrite H. reflexivity.
Qed.






(** ** Several starts *)

(** X17. Two starts in a row, with the two control loops then run one
    after the other, give one release, not two: the first loop makes its
    turn and sets the stop flag, and the second finds the flag set, makes
    no turn and writes nothing; after both there are as many control loops
    as before the starts. *)
Theorem two_starts_run_in_turn_release_once :
  forall fuel1 fuel2 time1 time2 g,
    exists g1,
      turningServoMotor (S fuel1) time1 (start_startServo (start_startServo g))
      = Done (g1, snd (servoCycle time1 g), 1%nat)
      /\ turningServoMotor fuel2 time2 g1
         = Done (mkGlobals true (stopButton g) false (mode g) (servoThreads g),
                 [], O).
Proof.
  intros fuel1 fuel2 time1 time2 g.
  exists (mkGlobals true (stopButton g) false (mode g) (S (servoThreads g))).
  split.
  - unfold turningServoMotor.
    rewrite turningServoLoop_after_start. reflexivity.
  - unfold turningServoMotor. destruct fuel2; reflexivity.
Qed.

(** X18. Every inference that is understood creates one control loop and
    takes back the stop request, and one that is not understood changes
    nothing: after a row of inferences there are as many more control loops
    as inferences were understood, the mode, the busy flag and the stop of
    the display loop are as before, and the stop request of the servo is
    off if one was understood and as before if none was. *)
Theorem inferences_spawn_one_loop_each :
  forall understood g,
    servoThreads (inferences understood g)
    = (servoThreads g + count_occ bool_dec understood true)%nat
    /\ mode (inferences understood g) = mode g
    /\ servoTurnedOn (inferences understood g) = servoTurnedOn g
    /\ stopButton (inferences understood g) = stopButton g
    /\ stopServo (inferences understood g)
       = if existsb (fun b => b) understood then false else stopServo g.
Proof.
  intros understood. unfold inferences.
  induction understood as [| b understood IH]; intros g.
  - cbn [fold_left count_occ existsb]. rewrite Nat.add_0_r. repeat split.
  - cbn [fold_left]. destruct (IH (inference_callback b g))
      as (H1 & H2 & H3 & H4 & H5).
    rewrite H1, H2, H3, H4, H5. destruct b; cbn [inference_callback].
    + cbn [count_occ existsb orb]. destruct (bool_dec true true); [ | congruence ].
      repeat split.
      * simpl. lia.
      * destruct (existsb (fun b => b) understood); reflexivity.
    + cbn [count_occ existsb orb].
      destruct (bool_dec false true); [ discriminate | ].
      repeat split.
Qed.

(** ** The options of the command line *)

(** The case of an option that stores its argument. *)
Ltac stored_case E :=
  apply Ascii.eqb_eq in E; subst; right; left;
  split; [ reflexivity | ];
  eexists; split; [ reflexivity | ];
  split; [ | reflexivity ];
  let x := fresh "x" in
  let Hx := fresh "Hx" in
  intros x Hx; unfold storedOptions in Hx; simpl in Hx;
  repeat (destruct Hx as [<- | Hx]; [ reflexivity | ]);
  contradiction.

(** The case of a required option that was not given. *)
Ltac missing x :=
  right; split; [ reflexivity | ];
  exists x; split; [ unfold requiredOptions; simpl; tauto | assumption ].

(** The three ways of the [switch]. *)
Lemma optionCase_cases : forall c optarg o,
  (c = "d"%char /\ optionCase c optarg o = inr ShowAudioDevices)
  \/ (settingOption c = true
      /\ exists o',
           optionCase c optarg o = inl o'
           /\ (forall x, In x storedOptions ->
                 optionVariable x o'
                 = if Ascii.eqb c x then Some optarg else optionVariable x o)
           /\ require_endpoint o'
              = if Ascii.eqb c "e" && String.eqb optarg "false" then false
                else require_endpoint o)
  \/ (c <> "d"%char /\ settingOption c = false
      /\ optionCase c optarg o = inr UsageExit).
Proof.
  intros c optarg o. unfold optionCase.
  destruct (Ascii.eqb c "d") eqn:Ed;
    [ left; apply Ascii.eqb_eq in Ed; split; [ exact Ed | reflexivity ] | ].
  destruct (Ascii.eqb c "l") eqn:El; [ stored_case El | ].
  destruct (Ascii.eqb c "a") eqn:Ea; [ stored_case Ea | ].
  destruct (Ascii.eqb c "k") eqn:Ek; [ stored_case Ek | ].
  destruct (Ascii.eqb c "c") eqn:Ec; [ stored_case Ec | ].
  destruct (Ascii.eqb c "s") eqn:Es; [ stored_case Es | ].
  destruct (Ascii.eqb c "p") eqn:Ep; [ stored_case Ep | ].
  destruct (Ascii.eqb c "t") eqn:Et; [ stored_case Et | ].
  destruct (Ascii.eqb c "r") eqn:Er; [ stored_case Er | ].
  destruct (Ascii.eqb c "u") eqn:Eu; [ stored_case Eu | ].
  destruct (Ascii.eqb c "e") eqn:Ee.
  { apply Ascii.eqb_eq in Ee; subst; right; left.
    split; [ reflexivity | ].
    eexists; split; [ reflexivity | ].
    split; [ | reflexivity ].
    intros x Hx; unfold storedOptions in Hx; simpl in Hx;
      repeat (destruct Hx as [<- | Hx]; [ reflexivity | ]);
      contradiction. }
  destruct (Ascii.eqb c "i") eqn:Ei; [ stored_case Ei | ].
  right; right.
  split; [ apply Ascii.eqb_neq; exact Ed | ].
  split; [ | reflexivity ].
  unfold settingOption, storedOptions. cbn [existsb].
  rewrite Ee, El, Ea, Ek, Ec, Es, Ep, Et, Er, Eu, Ei. reflexivity.
Qed.

Lemma requiredCheck_cases : forall o,
  (requiredCheck o = Proceed o
   /\ forall x, In x requiredOptions -> optionVariable x o <> None)
  \/ (requiredCheck o = UsageExit
      /\ exists x, In x requiredOptions /\ optionVariable x o = None).
Proof.
  intros o. unfold requiredCheck.
  destruct (library_path o) eqn:El; [ | missing "l"%char ].
  destruct (keyword_path o) eqn:Ek; [ | missing "k"%char ].
  destruct (context_path o) eqn:Ec; [ | missing "c"%char ].
  destruct (access_key o) eqn:Ea; [ | missing "a"%char ].
  destruct (porcupine_model_path o) eqn:Ep; [ | missing "p"%char ].
  destruct (rhino_model_path o) eqn:Er; [ | missing "r"%char ].
  left. split; [ reflexivity | ].
  intros x Hx. unfold requiredOptions in Hx. simpl in Hx.
  repeat (destruct Hx as [<- | Hx];
          [ unfold optionVariable; simpl; congruence | ]).
  contradiction.
Qed.

(** The loop over options that all set a variable comes to the test of the
    required options, with every variable holding the argument of the last
    option that sets it. *)
Lemma optionLoop_setting : forall opts o,
  forallb (fun p => settingOption (fst p)) opts = true ->
  exists o',
    optionLoop opts o = requiredCheck o'
    /\ (forall x, In x storedOptions ->
          optionVariable x o' = lastArg x opts (optionVariable x o))
    /\ require_endpoint o'
       = if existsb (fun p => Ascii.eqb (fst p) "e"
                              && String.eqb (snd p) "false") opts
         then false else require_endpoint o.
Proof.
  induction opts as [| [c optarg] opts IH]; intros o Hall.
  - exists o. repeat split.
  - cbn [forallb fst] in Hall. apply andb_true_iff in Hall.
    destruct Hall as [Hc Hall].
    destruct (optionCase_cases c optarg o)
      as [[-> _] | [(_ & o1 & E1 & Hv & He) | (_ & Hn & _)]];
      [ discriminate Hc | | congruence ].
    destruct (IH o1 Hall) as (o' & E & Hv' & He').
    exists o'. cbn [optionLoop]. rewrite E1.
    split; [ exact E | split ].
    + intros x Hx. rewrite (Hv' x Hx), (Hv x Hx). reflexivity.
    + rewrite He', He. cbn [existsb fst snd].
      destruct (Ascii.eqb c "e" && String.eqb optarg "false");
        [ | reflexivity ].
      cbn [orb]. destruct (existsb _ opts); reflexivity.
Qed.

(** The loop ends before the test of the required options exactly at the
    first option that sets no variable. *)
Lemma optionLoop_stops : forall pre c optarg post o,
  forallb (fun p => settingOption (fst p)) pre = true ->
  settingOption c = false ->
  optionLoop (pre ++ (c, optarg) :: post) o
  = if Ascii.eqb c "d" then ShowAudioDevices else UsageExit.
Proof.
  induction pre as [| [c0 a0] pre IH]; intros c optarg post o Hall Hc.
  - cbn [app optionLoop].
    destruct (optionCase_cases c optarg o)
      as [[-> E] | [(Hs & _) | (Hd & _ & E)]].
    + rewrite E. reflexivity.
    + congruence.
    + rewrite E. apply Ascii.eqb_neq in Hd. rewrite Hd. reflexivity.
  - cbn [forallb fst] in Hall. apply andb_true_iff in Hall.
    destruct Hall as [Hc0 Hall].
    destruct (optionCase_cases c0 a0 o)
      as [[-> _] | [(_ & o1 & E1 & _) | (_ & Hn & _)]];
      [ discriminate Hc0 | | congruence ].
    cbn [app optionLoop]. rewrite E1. apply IH; assumption.
Qed.

(** A row of options is a row of options that set a variable, or has a
    first option that sets none. *)
Lemma options_split : forall opts : list (ascii * string),
  forallb (fun p => settingOption (fst p)) opts = true
  \/ exists pre c optarg post,
       opts = pre ++ (c, optarg) :: post
       /\ forallb (fun p => settingOption (fst p)) pre = true
       /\ settingOption c = false.
Proof.
  induction opts as [| [c optarg] opts IH]; [ left; reflexivity | ].
  destruct (settingOption c) eqn:Ec.
  - destruct IH as [IH | (pre & c' & a' & post & -> & Hpre & Hc')].
    + left. cbn [forallb fst]. rewrite Ec, IH. reflexivity.
    + right. exists ((c, optarg) :: pre), c', a', post.
      split; [ reflexivity | split; [ | exact Hc' ] ].
      cbn [forallb fst]. rewrite Ec, Hpre. reflexivity.
  - right. exists [], c, optarg, opts. repeat split. exact Ec.
Qed.

Lemma lastArg_cons : forall x c optarg opts start,
  lastArg x ((c, optarg) :: opts) start
  = lastArg x opts (if Ascii.eqb c x then Some optarg else start).
Proof. reflexivity. Qed.

Lemma lastArg_In : forall x opts start a,
  lastArg x opts start = Some a -> start = Some a \/ In (x, a) opts.
Proof.
  intros x opts. induction opts as [| [c optarg] opts IH]; intros start a H.
  - left. exact H.
  - rewrite lastArg_cons in H. apply IH in H. destruct H as [H | H].
    + destruct (Ascii.eqb c x) eqn:E; [ | left; exact H ].
      apply Ascii.eqb_eq in E. subst c. injection H as ->.
      right. left. reflexivity.
    + right. right. exact H.
Qed.

Lemma lastArg_None : forall x opts start,
  lastArg x opts start = None ->
  start = None /\ forall a, ~ In (x, a) opts.
Proof.
  intros x opts. induction opts as [| [c optarg] opts IH]; intros start H.
  - split; [ exact H | intros a [] ].
  - rewrite lastArg_cons in H. apply IH in H. destruct H as [H Hn].
    destruct (Ascii.eqb c x) eqn:E; [ discriminate H | ].
    split; [ exact H | ].
    intros a [Ha | Ha]; [ | exact (Hn a Ha) ].
    injection Ha as -> _. rewrite Ascii.eqb_refl in E. discriminate E.
Qed.

Lemma required_stored : forall x, In x requiredOptions -> In x storedOptions.
Proof.
  intros x Hx. unfold requiredOptions in Hx. unfold storedOptions.
  simpl in Hx. simpl. tauto.
Qed.

Lemma requiredCheck_Proceed : forall o o',
  requiredCheck o = Proceed o' ->
  o' = o /\ forall x, In x requiredOptions -> optionVariable x o <> None.
Proof.
  intros o o' H. destruct (requiredCheck_cases o) as [[E Hv] | [E _]].
  - rewrite E in H. injection H as <-. split; [ reflexivity | exact Hv ].
  - rewrite E in H. discriminate H.
Qed.

Lemma settingOption_d : settingOption "d" = false.
Proof. reflexivity. Qed.

(** What the options are when the loading of the library is reached. *)
Lemma picovoiceOptions_Proceed : forall opts o,
  picovoiceOptions opts = Proceed o ->
  forallb (fun p => settingOption (fst p)) opts = true
  /\ (forall x, In x storedOptions -> optionVariable x o = lastArg x opts None)
  /\ (forall x, In x requiredOptions -> optionVariable x o <> None)
  /\ require_endpoint o
     = negb (existsb (fun p => Ascii.eqb (fst p) "e"
                               && String.eqb (snd p) "false") opts).
Proof.
  intros opts o H. unfold picovoiceOptions in H.
  destruct (options_split opts)
    as [Hall | (pre & c & a & post & -> & Hpre & Hc)].
  - destruct (optionLoop_setting opts initialOptions Hall)
      as (o' & E & Hv & He).
    rewrite E in H. apply requiredCheck_Proceed in H. destruct H as [-> Hreq].
    split; [ exact Hall | split; [ | split; [ exact Hreq | ] ] ].
    + intros x Hx. rewrite (Hv x Hx).
      unfold storedOptions in Hx. simpl in Hx.
      repeat (destruct Hx as [<- | Hx]; [ reflexivity | ]). contradiction.
    + rewrite He. cbn [require_endpoint initialOptions].
      destruct (existsb _ opts); reflexivity.
  - rewrite optionLoop_stops in H by assumption.
    destruct (Ascii.eqb c "d"); discriminate H.
Qed.

(** X19. When [picovoice_main] gets past its options, every option it was
    given is one of the eleven that take an argument, each variable holds the
    argument of the last option that sets it (its initial value if there is
    none), and each of the six required options was given: its variable
    holds an argument that is on the command line. *)
Theorem options_last_argument_wins :
  forall opts o,
    picovoiceOptions opts = Proceed o ->
    forallb (fun p => settingOption (fst p)) opts = true
    /\ (forall x, In x storedOptions ->
          optionVariable x o = lastArg x opts None)
    /\ (forall x, In x requiredOptions ->
          exists a, optionVariable x o = Some a /\ In (x, a) opts).
Proof.
  intros opts o H.
  destruct (picovoiceOptions_Proceed opts o H) as (Hall & Hv & Hreq & _).
  split; [ exact Hall | split; [ exact Hv | ] ].
  intros x Hx. pose proof (Hreq x Hx) as Hn.
  rewrite (Hv x (required_stored x Hx)) in *.
  destruct (lastArg x opts None) as [a |] eqn:E; [ | congruence ].
  exists a. split; [ reflexivity | ].
  apply lastArg_In in E. destruct E as [E | E]; [ discriminate E | exact E ].
Qed.

(** X20. Past the options, the endpoint is not required exactly when some
    option [e] had the argument false: an [e] with any other argument
    changes nothing, also after one with false. *)
Theorem require_endpoint_false_is_kept :
  forall opts o,
    picovoiceOptions opts = Proceed o ->
    (require_endpoint o = false <-> In ("e"%char, "false"%string) opts).
Proof.
  intros opts o H.
  destruct (picovoiceOptions_Proceed opts o H) as (_ & _ & _ & He).
  rewrite He. rewrite negb_false_iff, existsb_exists. split.
  - intros ([c a] & Hin & Hp). cbn [fst snd] in Hp.
    apply andb_true_iff in Hp. destruct Hp as [Hc Ha].
    apply Ascii.eqb_eq in Hc. apply String.eqb_eq in Ha. subst. exact Hin.
  - intros Hin. exists ("e"%char, "false"%string). split; [ exact Hin | reflexivity ].
Qed.

(** X21. How the options end. [show_audio_devices] is called, and 0
    returned after it, exactly when the first option that sets no variable
    is [d]; the options that come after it are not looked at. The loading of the
    library is reached exactly when every option sets a variable and each of
    the six required options is given. In every other case the usage is
    printed and the program exits with 1. *)
Theorem options_outcome :
  forall opts,
    (picovoiceOptions opts = ShowAudioDevices
     <-> exists pre optarg post,
           opts = pre ++ ("d"%char, optarg) :: post
           /\ forallb (fun p => settingOption (fst p)) pre = true)
    /\ ((exists o, picovoiceOptions opts = Proceed o)
        <-> forallb (fun p => settingOption (fst p)) opts = true
            /\ forall x, In x requiredOptions -> exists a, In (x, a) opts)
    /\ (picovoiceOptions opts = ShowAudioDevices
        \/ picovoiceOptions opts = UsageExit
        \/ exists o, picovoiceOptions opts = Proceed o).
Proof.
  intros opts. split; [ | split ].
  - split.
    + intros H. unfold picovoiceOptions in H.
      destruct (options_split opts)
        as [Hall | (pre & c & a & post & -> & Hpre & Hc)].
      * destruct (optionLoop_setting opts initialOptions Hall)
          as (o' & E & _).
        rewrite E in H.
        destruct (requiredCheck_cases o') as [[E' _] | [E' _]];
          rewrite E' in H; discriminate H.
      * rewrite optionLoop_stops in H by assumption.
        destruct (Ascii.eqb c "d") eqn:Ed; [ | discriminate H ].
        apply Ascii.eqb_eq in Ed. subst c.
        exists pre, a, post. split; [ reflexivity | exact Hpre ].
    + intros (pre & a & post & -> & Hpre). unfold picovoiceOptions.
      rewrite optionLoop_stops by (exact Hpre || exact settingOption_d).
      reflexivity.
  - split.
    + intros (o & H).
      destruct (picovoiceOptions_Proceed opts o H) as (Hall & Hv & Hreq & _).
      split; [ exact Hall | ].
      intros x Hx. pose proof (Hreq x Hx) as Hn.
      rewrite (Hv x (required_stored x Hx)) in Hn.
      destruct (lastArg x opts None) as [a |] eqn:E; [ | congruence ].
      exists a. apply lastArg_In in E.
      destruct E as [E | E]; [ discriminate E | exact E ].
    + intros (Hall & Hreq). unfold picovoiceOptions.
      destruct (optionLoop_setting opts initialOptions Hall)
        as (o' & E & Hv & _).
      exists o'. rewrite E.
      destruct (requiredCheck_cases o') as [[E' _] | [_ (x & Hx & Hn)]];
        [ exact E' | ].
      exfalso. rewrite (Hv x (required_stored x Hx)) in Hn.
      assert (Hi : optionVariable x initialOptions = None).
      { unfold requiredOptions in Hx. simpl in Hx.
        repeat (destruct Hx as [<- | Hx]; [ reflexivity | ]). contradiction. }
      rewrite Hi in Hn. apply lastArg_None in Hn. destruct Hn as [_ Hn].
      destruct (Hreq x Hx) as (a & Ha). exact (Hn a Ha).
  - destruct (picovoiceOptions opts) as [| | o];
      [ left | right; left | right; right; exists o ]; reflexivity.
Qed.

Lemma options_last_argument_wins_witness :
  picovoiceOptions
    [("l"%char, "lib.so"); ("a"%char, "key"); ("k"%char, "old.ppn");
     ("c"%char, "ctx.rhn"); ("p"%char, "ppn.pv"); ("r"%char, "rhn.pv");
     ("k"%char, "new.ppn")]%string
  = Proceed (mkOptions (Some "lib.so") (Some "key") (Some "new.ppn")
               (Some "ctx.rhn") None (Some "ppn.pv") None (Some "rhn.pv")
               None true None)%string
  /\ exists a,
       optionVariable "k"
         (mkOptions (Some "lib.so") (Some "key") (Some "new.ppn")
            (Some "ctx.rhn") None (Some "ppn.pv") None (Some "rhn.pv")
            None true None)%string = Some a
       /\ In ("k"%char, a)
            [("l"%char, "lib.so"); ("a"%char, "key"); ("k"%char, "old.ppn");
             ("c"%char, "ctx.rhn"); ("p"%char, "ppn.pv"); ("r"%char, "rhn.pv");
             ("k"%char, "new.ppn")]%string.
Proof.
  assert (H : picovoiceOptions
                [("l"%char, "lib.so"); ("a"%char, "key"); ("k"%char, "old.ppn");
                 ("c"%char, "ctx.rhn"); ("p"%char, "ppn.pv");
                 ("r"%char, "rhn.pv"); ("k"%char, "new.ppn")]%string
              = Proceed (mkOptions (Some "lib.so") (Some "key") (Some "new.ppn")
                           (Some "ctx.rhn") None (Some "ppn.pv") None
                           (Some "rhn.pv") None true None)%string)
    by (vm_compute; reflexivity).
  split; [ exact H | ].
  apply (options_last_argument_wins _ _ H).
  unfold requiredOptions. simpl. tauto.
Defined.

Lemma require_endpoint_false_is_kept_witness :
  picovoiceOptions
    [("l"%char, "lib.so"); ("a"%char, "key"); ("k"%char, "kw.ppn");
     ("e"%char, "false"); ("c"%char, "ctx.rhn"); ("p"%char, "ppn.pv");
     ("r"%char, "rhn.pv"); ("e"%char, "true")]%string
  = Proceed (mkOptions (Some "lib.so") (Some "key") (Some "kw.ppn")
               (Some "ctx.rhn") None (Some "ppn.pv") None (Some "rhn.pv")
               None false None)%string
  /\ (false = false
      <-> In ("e"%char, "false"%string)
            [("l"%char, "lib.so"); ("a"%char, "key"); ("k"%char, "kw.ppn");
             ("e"%char, "false"); ("c"%char, "ctx.rhn"); ("p"%char, "ppn.pv");
             ("r"%char, "rhn.pv"); ("e"%char, "true")]%string).
Proof.
  assert (H : picovoiceOptions
                [("l"%char, "lib.so"); ("a"%char, "key"); ("k"%char, "kw.ppn");
                 ("e"%char, "false"); ("c"%char, "ctx.rhn");
                 ("p"%char, "ppn.pv"); ("r"%char, "rhn.pv");
                 ("e"%char, "true")]%string
              = Proceed (mkOptions (Some "lib.so") (Some "key") (Some "kw.ppn")
                           (Some "ctx.rhn") None (Some "ppn.pv") None
                           (Some "rhn.pv") None false None)%string)
    by (vm_compute; reflexivity).
  split; [ exact H | ].
  apply (require_endpoint_false_is_kept _ _ H).
Defined.

(** ** The control loop from any state *)

(** X22. From whatever state a control loop is run on its own, fuel for
    one turn is enough for it to return, and it makes one turn at most:
    none when it finds the stop flag set, and then it changes nothing and
    writes nothing, and one, the turn of the mode, when it finds the flag
    clear; it returns with the stop flag set. With less fuel it times out
    or returns the same. *)
Theorem control_loop_makes_one_turn_at_most :
  forall fuel timeToSleep g,
    (exists g' t n,
       turningServoLoop (S fuel) timeToSleep g = Done (g', t, n)
       /\ (n <= 1)%nat
       /\ stopServo g' = true
       /\ (stopServo g = true -> n = O /\ g' = g /\ t = [])
       /\ (stopServo g = false ->
           n = 1%nat /\ t = snd (servoCycle timeToSleep g)
           /\ g' = fst (servoCycle timeToSleep g)))
    /\ (forall r, turningServoLoop fuel timeToSleep g = Done r ->
          turningServoLoop (S fuel) timeToSleep g = Done r)
    /\ turningServoLoop O timeToSleep g
       = if stopServo g then Done (g, [], O) else Timeout.
Proof.
  intros fuel timeToSleep g.
  assert (Hstop : forall f g0, stopServo g0 = true ->
                  turningServoLoop f timeToSleep g0 = Done (g0, [], O)).
  { intros f g0 E0. destruct f; cbn [turningServoLoop]; rewrite E0;
      reflexivity. }
  assert (Hrun : forall f, stopServo g = false ->
                 turningServoLoop (S f) timeToSleep g
                 = Done (fst (servoCycle timeToSleep g),
                         snd (servoCycle timeToSleep g), 1%nat)).
  { intros f E0. cbn [turningServoLoop]. rewrite E0.
    cbn [servoCycle]. rewrite Hstop by reflexivity. cbn [bind fst snd].
    rewrite app_nil_r. reflexivity. }
  split; [ | split ].
  - destruct (stopServo g) eqn:Es.
    + exists g, [], O. rewrite Hstop by exact Es.
      split; [ reflexivity | split; [ lia | split; [ exact Es | split ] ] ].
      * intros _. repeat split.
      * discriminate.
    + exists (fst (servoCycle timeToSleep g)),
        (snd (servoCycle timeToSleep g)), 1%nat.
      rewrite Hrun by reflexivity.
      split; [ reflexivity | split; [ lia | split; [ reflexivity | split ] ] ].
      * discriminate.
      * intros _. repeat split.
  - intros r H. destruct (stopServo g) eqn:Es.
    + rewrite Hstop in H by exact Es. rewrite Hstop by exact Es. exact H.
    + destruct fuel as [| fuel].
      * cbn [turningServoLoop] in H. rewrite Es in H. discriminate H.
      * rewrite Hrun in H by reflexivity. rewrite Hrun by reflexivity. exact H.
  - reflexivity.
Qed.

(** ** A start among the other threads *)

Lemma perform_keeps_stopServo : forall cs op g,
  writesStopServo op = false -> stopServo (perform cs op g) = stopServo g.
Proof.
  intros cs op g H. destruct op; cbn [perform]; try discriminate H;
    try reflexivity.
  - destruct (iter_switchMode_fields 1 g) as (E & _). exact E.
  - destruct is_understood; [ discriminate H | reflexivity ].
  - destruct (displayTurn cs button g) as [[[[g1 b1] t1] n1] | | |] eqn:E;
      try reflexivity.
    destruct (displayTurn_globals _ _ _ _ _ _ _ E) as [[-> _] | [-> _]];
      [ reflexivity | ].
    destruct (iter_switchMode_fields 1 g) as (E1 & _). exact E1.
  - destruct (displayButton cs turns button g)
      as [[[[g1 b1] t1] n1] | | |] eqn:E; try reflexivity.
    apply displayButton_globals in E. subst g1.
    destruct (iter_switchMode_fields n1 g) as (E1 & _). exact E1.
Qed.

Lemma performAll_keeps_stopServo : forall cs ops g,
  Forall (fun op => writesStopServo op = false) ops ->
  stopServo (performAll cs ops g) = stopServo g.
Proof.
  intros cs ops. unfold performAll.
  induction ops as [| op ops IH]; intros g H; [ reflexivity | ].
  inversion H as [| ? ? Hop Hops]; subst. cbn [fold_left].
  rewrite IH by exact Hops. apply perform_keeps_stopServo. exact Hop.
Qed.

Lemma Forall_hd_others : forall (P : operation -> Prop) others,
  Forall (Forall P) others -> Forall P (hd [] others).
Proof.
  intros P others H. destruct others as [| ops others]; [ constructor | ].
  inversion H; assumption.
Qed.

Lemma Forall_tl_others : forall (P : operation -> Prop) others,
  Forall (Forall P) others -> Forall (Forall P) (tl others).
Proof.
  intros P others H. destruct others as [| ops others]; [ constructor | ].
  inversion H; assumption.
Qed.

(** With no other thread at work the loop among the others is the loop on
    its own. *)
Lemma turningServoLoopAmong_alone : forall cs fuel timeToSleep g,
  turningServoLoopAmong cs fuel timeToSleep [] g
  = turningServoLoop fuel timeToSleep g.
Proof.
  induction fuel as [| fuel IH]; intros timeToSleep g; [ reflexivity | ].
  cbn [turningServoLoopAmong turningServoLoop hd tl performAll fold_left].
  destruct (stopServo g); [ reflexivity | ].
  cbn [servoCycle]. rewrite IH. reflexivity.
Qed.

(** C4, as the code has it. In every mode, the control loop that a call of
    [start_startServo] starts runs its body once and then stops, provided
    that no other thread assigns the stop flag while the loop runs, that
    is, no other start and no other control loop: the loop finds the flag
    clear, makes its turn, which sets the flag, finds it set and returns;
    run on its own it leaves as many control loops as there were before the
    call. *)
Theorem start_runs_one_cycle_undisturbed :
  forall char_is_signed fuel timeToSleep others g,
    Forall (Forall (fun op => writesStopServo op = false)) others ->
    (exists g' t,
       turningServoMotorAmong char_is_signed (S fuel) timeToSleep others
         (start_startServo g)
       = Done (g', t, 1%nat)
       /\ stopServo g' = true
       /\ t = snd (servoCycle timeToSleep
                     (performAll char_is_signed (hd [] others)
                        (start_startServo g))))
    /\ turningServoMotorAmong char_is_signed (S fuel) timeToSleep []
         (start_startServo g)
       = turningServoMotor (S fuel) timeToSleep (start_startServo g)
    /\ turningServoMotor (S fuel) timeToSleep (start_startServo g)
       = Done (mkGlobals true (stopButton g) false (mode g) (servoThreads g),
               snd (servoCycle timeToSleep g), 1%nat)
    /\ (Idle g ->
        Idle (mkGlobals true (stopButton g) false (mode g) (servoThreads g))).
Proof.
  intros cs fuel timeToSleep others g Hq.
  split; [ | split; [ | split ] ].
  - set (g0 := performAll cs (hd [] others) (start_startServo g)).
    assert (E0 : stopServo g0 = false).
    { unfold g0. rewrite performAll_keeps_stopServo
        by (apply Forall_hd_others; exact Hq).
      reflexivity. }
    set (g1 := fst (servoCycle timeToSleep g0)).
    set (g2 := performAll cs (hd [] (tl others)) g1).
    assert (E2 : stopServo g2 = true).
    { unfold g2. rewrite performAll_keeps_stopServo
        by (apply Forall_hd_others; apply Forall_tl_others; exact Hq).
      reflexivity. }
    assert (Hend : turningServoLoopAmong cs fuel timeToSleep (tl others) g1
                   = Done (g2, [], O)).
    { destruct fuel; cbn [turningServoLoopAmong]; fold g2; rewrite E2;
        reflexivity. }
    exists (set_servoThreads (pred (servoThreads g2)) g2),
      (snd (servoCycle timeToSleep g0)).
    split; [ | split; [ exact E2 | reflexivity ] ].
    unfold turningServoMotorAmong. cbn [turningServoLoopAmong].
    fold g0. rewrite E0. cbn [servoCycle]. fold g1.
    change (stop_stopServo (set_servoTurnedOn true g0)) with g1.
    rewrite Hend. cbn [bind]. rewrite app_nil_r. reflexivity.
  - unfold turningServoMotorAmong, turningServoMotor.
    rewrite turningServoLoopAmong_alone. reflexivity.
  - apply start_runs_one_cycle.
  - intros H. exact H.
Qed.

(** The other thread is the display loop, with a turn before the first
    test of the control loop and a call of [switchMode] after its turn. *)
Lemma start_runs_one_cycle_undisturbed_witness :
  Forall (Forall (fun op => writesStopServo op = false))
    [[RunDisplayTurn [0]]; [CallSwitchMode]]
  /\ exists g' t,
       turningServoMotorAmong false 3 5 [[RunDisplayTurn [0]]; [CallSwitchMode]]
         (start_startServo initial)
       = Done (g', t, 1%nat)
       /\ stopServo g' = true
       /\ t = snd (servoCycle 5
                     (performAll false (hd [] [[RunDisplayTurn [0]];
                                               [CallSwitchMode]])
                        (start_startServo initial))).
Proof.
  assert (Hq : Forall (Forall (fun op => writesStopServo op = false))
                 [[RunDisplayTurn [0]]; [CallSwitchMode]])
    by (repeat constructor).
  split; [ exact Hq | ].
  apply (start_runs_one_cycle_undisturbed false 2 5
           [[RunDisplayTurn [0]]; [CallSwitchMode]] initial Hq).
Defined.

(** C4, as it is worded, fails: not each start runs the body of its loop
    once. A start that clears the stop flag between the turn of a running
    loop and its next test makes that loop run a second turn; and of two
    starts whose loops run one after the other, the second loop, which
    comes to its first test after the first loop has run, makes no turn. *)
Lemma start_loop_makes_two_turns_or_none :
  (exists g t,
     turningServoLoopAmong false 5 0 [[]; [CallStartServo]]
       (start_startServo initial)
     = Done (g, t, 2%nat))
  /\ (exists g,
        turningServoLoopAmong false 5 0 [[RunServoThread 5 0]]
          (start_startServo (start_startServo initial))
        = Done (g, [], O)).
Proof.
  split.
  - eexists. eexists. vm_compute. reflexivity.
  - eexists. vm_compute. reflexivity.
Qed.
